(** * pycuber: the random-state scrambler (src/pycuber/scrambler.py)

    A shallow embedding of the scrambler module and the verification of
    its parity computation, state generator, facelet encoder, move
    inverter and error boundary.

    Conventions of the embedding.
    - Python [int] values that are used as list indices, counters and
      orientations are natural numbers: every integer the module builds
      is non-negative.
    - Python [str] is [string]; a one-character string is what indexing
      a [str] yields.
    - A Python call either returns, raises an exception or does not
      come back; [outcome] has one constructor for each.  The module
      itself raises instances of [Exception] only; the solver is
      foreign code and may raise anything, [KeyboardInterrupt] and
      [SystemExit] included, which [except Exception] lets through.
    - [print] writes to the standard output, which takes every line and
      is not part of the model; the text to print is computed as in the
      source, and that computation can raise.
    - The draws of the [random] module are an explicit argument
      ([draws]), and the external solver is an explicit function. *)

Set Warnings "-notation-overridden,-ambiguous-paths,-deprecated".
From HB Require Import structures.
From mathcomp Require Import boot finite_group.
From Stdlib Require Import String Ascii DecimalString DecimalNat Lia.

Set Implicit Arguments.
Unset Strict Implicit.
Unset Printing Implicit Defensive.

Local Open Scope nat_scope.
Local Open Scope seq_scope.

HB.instance Definition _ := hasDecEq.Build string String.eqb_spec.
HB.instance Definition _ := hasDecEq.Build ascii Ascii.eqb_spec.

(** ** Exceptions and outcomes *)

Inductive exn_class : Type :=
| ValueError | IndexError | OtherError   (* subclasses of Exception *)
| KeyboardInterrupt | SystemExit.        (* BaseException, not Exception *)

(** [issubclass(c, Exception)] *)
Definition is_exception (c : exn_class) : bool :=
  match c with
  | KeyboardInterrupt | SystemExit => false
  | ValueError | IndexError | OtherError => true
  end.

(** An exception instance: its class and what [str(e)] does.  For the
    exceptions of the interpreter and of this module [str(e)] returns
    the message; an exception of foreign code can have a [__str__] that
    raises in turn. *)
Inductive exn : Type :=
| Exn (cls : exn_class) (text : string)
| ExnNoStr (cls : exn_class) (raised : exn).

Definition exn_cls (e : exn) : exn_class :=
  match e with
  | Exn cls _ => cls
  | ExnNoStr cls _ => cls
  end.

Inductive outcome (A : Type) : Type :=
| Ret (a : A)
| Raise (e : exn)
| Diverge.

Arguments Ret {A} a.
Arguments Raise {A} e.
Arguments Diverge {A}.

Definition bind {A B : Type} (m : outcome A) (k : A -> outcome B) : outcome B :=
  match m with
  | Ret a => k a
  | Raise e => Raise e
  | Diverge => Diverge
  end.

Declare Scope py_scope.
Delimit Scope py_scope with py.
Notation "'let*' x ':=' m 'in' k" := (bind m (fun x => k))
  (at level 10, x name, m at level 100, k at level 200) : py_scope.
Notation "'let*' ' p ':=' m 'in' k" :=
  (bind m (fun x => match x with p => k end))
  (at level 10, p pattern, m at level 100, k at level 200) : py_scope.
Local Open Scope py_scope.

(** [str(e)] for an exception [e], also what [f"{e}"] evaluates. *)
Definition str_of_exn (e : exn) : outcome string :=
  match e with
  | Exn _ text => Ret text
  | ExnNoStr _ raised => Raise raised
  end.

(** [try: body  except Exception as e: handler e].  An exception that
    is not an instance of [Exception] passes through, and so does what
    the handler itself raises. *)
Definition try_except {A : Type} (body : outcome A) (handler : exn -> outcome A)
  : outcome A :=
  match body with
  | Ret a => Ret a
  | Raise e => if is_exception (exn_cls e) then handler e else Raise e
  | Diverge => Diverge
  end.

(** [print(text)] *)
Definition print (text : string) : outcome unit := Ret tt.

(** ** Lists and strings as Python indexes them *)

Section PyList.
Variable T : Type.

Fixpoint lookup (l : seq T) (i : nat) : option T :=
  match l, i with
  | [::], _ => None
  | x :: _, 0 => Some x
  | _ :: l', i'.+1 => lookup l' i'
  end.

Fixpoint update (l : seq T) (i : nat) (v : T) : seq T :=
  match l, i with
  | [::], _ => [::]
  | _ :: l', 0 => v :: l'
  | x :: l', i'.+1 => x :: update l' i' v
  end.

(** [l[i]] for a non-negative [i]. *)
Definition getitem (l : seq T) (i : nat) : outcome T :=
  if lookup l i is Some x then Ret x
  else Raise (Exn IndexError "list index out of range").

(** [l[i] = v] for a non-negative [i]. *)
Definition setitem (l : seq T) (i : nat) (v : T) : outcome (seq T) :=
  if i < size l then Ret (update l i v)
  else Raise (Exn IndexError "list assignment index out of range").

(** [for x in xs: st = body x st] *)
Fixpoint for_each (St : Type) (xs : seq T) (body : T -> St -> outcome St)
    (st : St) : outcome St :=
  match xs with
  | [::] => Ret st
  | x :: xs' => let* st' := body x st in for_each xs' body st'
  end.

End PyList.

Definition range (n : nat) : seq nat := iota 0 n.

(** [s[i]] on a [str]: the one-character string at index [i]. *)
Definition str_getitem (s : string) (i : nat) : outcome string :=
  if String.get i s is Some c then Ret (String c EmptyString)
  else Raise (Exn IndexError "string index out of range").

(** ** get_permutation_parity *)

(** The inner [while not visited[j]] loop.  [fuel] is the number of
    executions of the loop body that are still allowed; the loop hands
    back what is left of it. *)
Fixpoint follow_cycle (fuel : nat) (perm : seq nat) (visited : seq bool) (j : nat)
  : outcome (seq bool * nat * nat) :=
  let* v := getitem visited j in
  if ~~ v then
    match fuel with
    | 0 => Diverge
    | fuel'.+1 =>
        let* visited := setitem visited j true in
        let* j := getitem perm j in
        follow_cycle fuel' perm visited j
    end
  else Ret (visited, j, fuel).

(** The body of [for i in range(n)], on the loop state: the [visited]
    list, the [cycles] counter and the fuel that is left. *)
Definition parity_body (perm : seq nat) (i : nat) (st : seq bool * nat * nat)
  : outcome (seq bool * nat * nat) :=
  let '(visited, cycles, fuel) := st in
  let* v := getitem visited i in
  if ~~ v then
    let cycles := cycles + 1 in
    let j := i in
    let* '(visited, _, fuel) := follow_cycle fuel perm visited j in
    Ret (visited, cycles, fuel)
  else Ret (visited, cycles, fuel).

(** The state in which the outer loop is left. *)
Definition parity_loop (fuel : nat) (perm : seq nat)
  : outcome (seq bool * nat * nat) :=
  let n := size perm in
  let visited := nseq n false in
  let cycles := 0 in
  for_each (range n) (parity_body perm) (visited, cycles, fuel).

Definition get_permutation_parity_fuel (fuel : nat) (perm : seq nat) : outcome nat :=
  let n := size perm in
  let* '(_, cycles, _) := parity_loop fuel perm in
  Ret ((n - cycles) %% 2).

(** The loop body runs at most [len(perm)] times, whatever the list
    holds ([parity_loop_total] below), so this budget is never used up. *)
Definition get_permutation_parity (perm : seq nat) : outcome nat :=
  get_permutation_parity_fuel (size perm) perm.

(** ** generate_random_state_string *)

(** What the [random] module hands out during one call: the two shuffled
    lists and the orientation values drawn by [randint]. *)
Record draws : Type := Draws {
  shuffled_cp : seq nat;     (* cp after random.shuffle(cp) *)
  shuffled_ep : seq nat;     (* ep after random.shuffle(ep) *)
  drawn_co : seq nat;        (* [random.randint(0, 2) for _ in range(7)] *)
  drawn_eo : seq nat         (* [random.randint(0, 1) for _ in range(11)] *)
}.

(** The outcomes the [random] module can produce. *)
Definition valid_draws (d : draws) : bool :=
  [&& perm_eq (shuffled_cp d) (range 8),
      perm_eq (shuffled_ep d) (range 12),
      size (drawn_co d) == 7, all (fun o => o < 3) (drawn_co d),
      size (drawn_eo d) == 11 & all (fun o => o < 2) (drawn_eo d)].

Record cube_state : Type := CubeState {
  cp : seq nat;
  co : seq nat;
  ep : seq nat;
  eo : seq nat
}.

Definition solved_chars : string :=
  "UUUUUUUUURRRRRRRRRFFFFFFFFFDDDDDDDDDLLLLLLLLLBBBBBBBBB".

Definition corner_stickers : seq (seq nat) :=
  [:: [:: 8; 9; 20];
      [:: 6; 18; 38];
      [:: 0; 36; 47];
      [:: 2; 45; 11];
      [:: 29; 26; 15];
      [:: 27; 44; 24];
      [:: 33; 53; 42];
      [:: 35; 17; 51] ].

Definition edge_stickers : seq (seq nat) :=
  [:: [:: 7; 19];
      [:: 5; 10];
      [:: 1; 46];
      [:: 3; 37];
      [:: 23; 12];
      [:: 21; 41];
      [:: 48; 14];
      [:: 50; 39];
      [:: 28; 25];
      [:: 32; 16];
      [:: 34; 52];
      [:: 30; 43] ].

Definition center_indices : seq nat := [:: 4; 13; 22; 31; 40; 49].

(** [l[i], l[j] = l[j], l[i]] *)
Definition swap_entries (l : seq nat) (i j : nat) : outcome (seq nat) :=
  let* lj := getitem l j in
  let* li := getitem l i in
  let* l := setitem l i lj in
  setitem l j li.

(** Lines 59-75: the permutations, the orientations with their last
    entry appended, and the conditional swap of [ep[0]] and [ep[1]]. *)
Definition generate_state (d : draws) : outcome cube_state :=
  let cp := shuffled_cp d in
  let ep := shuffled_ep d in
  let co := drawn_co d in
  let co := rcons co ((3 - (sumn co %% 3)) %% 3) in
  let eo := drawn_eo d in
  let eo := rcons eo ((2 - (sumn eo %% 2)) %% 2) in
  let* pc := get_permutation_parity cp in
  let* pe := get_permutation_parity ep in
  let* ep := (if pc != pe then swap_entries ep 0 1 else Ret ep) in
  Ret (CubeState cp co ep eo).

(** The [facelets] list, together with the indices that have been
    assigned so far, oldest first.  The history is not in the program:
    it records which assignments [facelets[idx] = c] were executed. *)
Record canvas : Type := Canvas { cells : seq string; history : seq nat }.

(** [facelets[idx] = c] *)
Definition store (f : canvas) (idx : nat) (c : string) : outcome canvas :=
  let* cells' := setitem (cells f) idx c in
  Ret (Canvas cells' (rcons (history f) idx)).

(** The body shared by the corner loop (lines 82-93, [kmax = 3]) and the
    edge loop (lines 97-106, [kmax = 2]). *)
Definition place_piece (stickers : seq (seq nat)) (kmax : nat)
    (perm ori : seq nat) (i : nat) (facelets : canvas) : outcome canvas :=
  let* target_piece_idx := getitem perm i in
  let* orientation := getitem ori i in
  let* original_sticker_indices := getitem stickers i in
  let* target_facelet_positions := getitem stickers target_piece_idx in
  for_each (range kmax)
    (fun k facelets =>
       let* idx := getitem original_sticker_indices k in
       let* original_char := str_getitem solved_chars idx in
       let* target_facelet_idx :=
         getitem target_facelet_positions ((k + orientation) %% kmax) in
       store facelets target_facelet_idx original_char)
    facelets.

Definition corner_loop (st : cube_state) (facelets : canvas) : outcome canvas :=
  for_each (range 8) (place_piece corner_stickers 3 (cp st) (co st)) facelets.

Definition edge_loop (st : cube_state) (facelets : canvas) : outcome canvas :=
  for_each (range 12) (place_piece edge_stickers 2 (ep st) (eo st)) facelets.

Definition center_loop (facelets : canvas) : outcome canvas :=
  for_each center_indices
    (fun idx facelets =>
       let* c := str_getitem solved_chars idx in
       store facelets idx c)
    facelets.

(** Lines 77-112: the three loops on a list of 54 empty strings. *)
Definition fill_facelets (st : cube_state) : outcome canvas :=
  let facelets := Canvas (nseq 54 ""%string) [::] in
  let* facelets := corner_loop st facelets in
  let* facelets := edge_loop st facelets in
  center_loop facelets.

(** [str(i)] for a non-negative [int]. *)
Definition str_of_nat (i : nat) : string :=
  NilEmpty.string_of_uint (Nat.to_uint i).

(** [", ".join(l)] and the like. *)
Definition join (sep : string) (l : seq string) : string := String.concat sep l.

(** [str(l)] for a list of non-negative [int]s. *)
Definition str_of_list (l : seq nat) : string :=
  ("[" ++ join ", " [seq str_of_nat i | i <- l] ++ "]")%string.

(** [[i for i, x in enumerate(facelets) if x == ""]] *)
Definition missing_indices (facelets : seq string) : seq nat :=
  [seq i <- range (size facelets) | nth "x"%string facelets i == ""%string].

(** Lines 114-121: the check for empty slots and the final join. *)
Definition check_and_join (facelets : seq string) : outcome string :=
  if ""%string \in facelets then
    Raise (Exn ValueError
             ("Generated facelet string has missing values at indices: "
              ++ str_of_list (missing_indices facelets))%string)
  else Ret (join "" facelets).

(** [generate_random_state_string], split at the line where the cube
    state is complete so that the state can be named. *)
Definition encode_state (st : cube_state) : outcome string :=
  let* facelets := fill_facelets st in
  check_and_join (cells facelets).

Definition generate_random_state_string (d : draws) : outcome string :=
  let* st := generate_state d in
  encode_state st.

(** ** invert_move and invert_solution *)

(** [s.endswith(suffix)] *)
Definition endswith (s suffix : string) : bool :=
  (String.length suffix <= String.length s) &&
  (substring (String.length s - String.length suffix) (String.length suffix) s
     == suffix).

Definition invert_move (move : string) : string :=
  if endswith move "'" then substring 0 (String.length move - 1) move
  else if endswith move "2" then move
  else (move ++ "'")%string.

(** [c.isspace()] for the code points below 256. *)
Definition isspace (c : ascii) : bool :=
  let n := nat_of_ascii c in
  [|| (9 <= n) && (n <= 13), (28 <= n) && (n <= 32), n == 133 | n == 160].

(** [s.split()]: the maximal runs of characters that are not white
    space; [cur] is the run being read. *)
Fixpoint split_from (s : string) (cur : string) : seq string :=
  match s with
  | EmptyString => if cur == ""%string then [::] else [:: cur]
  | String c s' =>
      if isspace c then
        if cur == ""%string then split_from s' ""%string
        else cur :: split_from s' ""%string
      else split_from s' (cur ++ String c EmptyString)%string
  end.

Definition split (s : string) : seq string := split_from s ""%string.

(** Line 139, on the list of moves:
    [[invert_move(m) for m in reversed(moves)]] *)
Definition invert_sequence (moves : seq string) : seq string :=
  [seq invert_move m | m <- rev moves].

Definition invert_solution (solution : string) : string :=
  if solution == ""%string then ""%string
  else
    let moves := split solution in
    let inverted_moves := invert_sequence moves in
    join " " inverted_moves.

(** ** get_scramble *)

(** What a call of the solver comes back with: the string it returns,
    or the exception it raises, of any class and with any [__str__]. *)
Inductive reply : Type :=
| Solution (moves : string)
| Failure (e : exn).

Definition call (solve : string -> reply) (state : string) : outcome string :=
  match solve state with
  | Solution moves => Ret moves
  | Failure e => Raise e
  end.

(** The [except] clause of [get_scramble]: both f-strings evaluate
    [str(e)], outside any [try]. *)
Definition diagnostic (e : exn) (state : string) : outcome string :=
  let* text := str_of_exn e in
  let* _ := print ("ERROR: " ++ text) in
  let* text := str_of_exn e in
  Ret ("Error generating scramble: " ++ text ++ " | State: " ++ state)%string.

(** The body of [get_scramble], given what the call
    [generate_random_state_string()] comes back with.  The [try] block
    is entered with [state = ""]; when the generator does not return,
    the handler finds [state] still empty, and once it has returned,
    [state] is the generated string for the rest of the block. *)
Definition get_scramble_with (generated : outcome string)
    (solve : string -> reply) : outcome string :=
  let state := ""%string in
  match generated with
  | Ret generated_state =>
      let state := generated_state in
      try_except
        (let* _ := print ("DEBUG: Generated State: " ++ state) in
         let* solution := call solve state in
         let* _ := print ("DEBUG: Kociemba Solution: " ++ solution) in
         let scramble := invert_solution solution in
         let* _ := print ("DEBUG: Final Scramble: " ++ scramble) in
         Ret scramble)
        (fun e => diagnostic e state)
  | not_returned => try_except not_returned (fun e => diagnostic e state)
  end.

Definition get_scramble (d : draws) (solve : string -> reply) : outcome string :=
  get_scramble_with (generate_random_state_string d) solve.

(** ** Notions used to state the properties *)

(** A permutation of [0, n) written out as the list the program works
    on: entry [i] is the image of [i]. *)
Definition list_of_perm (n : nat) (s : 'S_n) : seq nat :=
  [seq val (s i) | i <- enum 'I_n].

(** The [visited] list in which exactly the indices of [V] are marked. *)
Definition marks (n : nat) (V : {set 'I_n}) : seq bool :=
  [seq i \in V | i <- enum 'I_n].

(** A state the encoder is meant for. *)
Definition valid_state (st : cube_state) : bool :=
  [&& perm_eq (cp st) (range 8), perm_eq (ep st) (range 12),
      size (co st) == 8, all (fun o => o < 3) (co st),
      size (eo st) == 12 & all (fun o => o < 2) (eo st)].

(** The character of the solved cube at a facelet index, as the
    one-character string [solved_chars[idx]]. *)
Definition solved_at (idx : nat) : string :=
  if String.get idx solved_chars is Some c then String c EmptyString
  else EmptyString.

(** A list of assignments [facelets[idx] = c], executed in order. *)
Definition stores (ws : seq (nat * string)) (facelets : canvas) : outcome canvas :=
  for_each ws (fun w facelets => store facelets w.1 w.2) facelets.

(** The assignments that [place_piece] makes for piece [i], and those of
    a whole placing loop. *)
Definition piece_writes (stickers : seq (seq nat)) (kmax : nat)
    (perm ori : seq nat) (i : nat) : seq (nat * string) :=
  [seq (nth 0 (nth [::] stickers (nth 0 perm i)) ((k + nth 0 ori i) %% kmax),
        solved_at (nth 0 (nth [::] stickers i) k))
  | k <- range kmax].

Definition loop_writes (stickers : seq (seq nat)) (kmax : nat)
    (perm ori : seq nat) : seq (nat * string) :=
  flatten [seq piece_writes stickers kmax perm ori i
          | i <- range (size stickers)].

(** The characters of a [str]. *)
Definition characters (s : string) : seq ascii := list_ascii_of_string s.

(** The facelet indices in the order of the tables. *)
Definition table_order : seq nat :=
  flatten corner_stickers ++ flatten edge_stickers ++ center_indices.

(** The six face symbols. *)
Definition face_symbols : seq ascii := [:: "U"; "R"; "F"; "D"; "L"; "B"]%char.

(** All the assignments of the three loops of the encoder, in order. *)
Definition encoder_writes (st : cube_state) : seq (nat * string) :=
  loop_writes corner_stickers 3 (cp st) (co st)
  ++ loop_writes edge_stickers 2 (ep st) (eo st)
  ++ [seq (p, solved_at p) | p <- center_indices].

(** The move tokens of the grammar: a face symbol followed by nothing,
    by a prime or by a 2. *)
Definition faces : seq string := [:: "U"; "R"; "F"; "D"; "L"; "B"]%string.

Definition modifiers : seq string := [:: ""; "'"; "2"]%string.

Definition move_tokens : seq string :=
  [seq (f ++ m)%string | f <- faces, m <- modifiers].

Definition is_move (m : string) : bool := m \in move_tokens.

(** A token that [split] gives back as it is: not empty and free of
    white space. *)
Definition is_token (t : string) : bool :=
  (t != ""%string) && all (fun c => ~~ isspace c) (characters t).

(** An exception that [except Exception] catches and that [str] turns
    into a text. *)
Definition printable (e : exn) : bool :=
  is_exception (exn_cls e) && (if str_of_exn e is Ret _ then true else false).

(** A call that returns, or raises a printable exception. *)
Definition comes_back (A : Type) (m : outcome A) : bool :=
  match m with
  | Ret _ => true
  | Raise e => printable e
  | Diverge => false
  end.

(** A reply of the solver that [get_scramble] turns into a string: a
    returned solution or a printable exception, which is what a solver
    that keeps to [solve(state) -> moves | error] gives. *)
Definition handled (r : reply) : bool :=
  match r with
  | Solution _ => true
  | Failure e => printable e
  end.

Definition solver_handled (solve : string -> reply) : Prop :=
  forall state, handled (solve state).

(** The characters seen at the positions 0, 1, ... of a slot that holds
    piece [i] with orientation [o]. *)
Definition slot_colors (stickers : seq (seq nat)) (kmax : nat) (i o : nat)
  : seq string :=
  [seq solved_at (nth 0 (nth [::] stickers i) ((p + (kmax - o)) %% kmax))
  | p <- range kmax].

(** All pieces of a table with all their orientations. *)
Definition placements (stickers : seq (seq nat)) (kmax : nat)
  : seq (nat * nat) :=
  [seq (i, o) | i <- range (size stickers), o <- range kmax].

(** No two placements show the same characters. *)
Definition distinct_colors (stickers : seq (seq nat)) (kmax : nat) : bool :=
  all (fun a =>
         all (fun b =>
                (slot_colors stickers kmax a.1 a.2
                 == slot_colors stickers kmax b.1 b.2) ==> (a == b))
             (placements stickers kmax))
      (placements stickers kmax).

(** ** The timer application (src/pycuber/app.py)

    The attributes of [PyCuberApp] and the methods that work on them.
    Python's [float] with its arithmetic, its ordering and its
    formatting is not reproduced: the operations the methods use are
    gathered in [float_ops], and [format_time], which only formats a
    float, is one of them.  The widgets belong to the Textual library:
    a call of one of their methods is recorded in the order in which it
    is made.  [set_interval(0.03, self.update_timer)] leaves a timer in
    [timer_interval]; its ticks are the [Tick] events below. *)

Record float_ops : Type := FloatOps {
  float : Type;
  f_zero : float;                              (* 0.0 *)
  f_sub : float -> float -> float;             (* a - b *)
  f_sum : seq float -> float;                  (* sum(l) *)
  f_div : float -> nat -> float;               (* x / n for an int n *)
  f_sorted : seq float -> seq float;           (* sorted(l) *)
  format_time : float -> string                (* format_time(seconds) *)
}.

Inductive ui_call : Type :=
| TimerUpdate (text : string)         (* TimerDisplay.update(text) *)
| TimerRemoveClass (name : string)    (* TimerDisplay.remove_class(name) *)
| TimerAddClass (name : string)       (* TimerDisplay.add_class(name) *)
| TableAddRow (cells : seq string) (key : string)
                                      (* DataTable.add_row(cells..., key=key) *)
| TableScrollEnd                      (* DataTable.scroll_end() *)
| TableClear                          (* DataTable.clear() *)
| StatsUpdate (text : string)         (* StatsDisplay.update(text) *)
| ScrambleUpdate (text : string)      (* ScrambleDisplay.update(text) *)
| IntervalStop                        (* self.timer_interval.stop() *)
| AppExit.                            (* self.exit() *)

Definition newline : string := String (ascii_of_nat 10) EmptyString.

Section App.
Variable F : float_ops.

Record app : Type := App {
  start_time : float F;
  timer_interval : bool;         (* a running interval timer, or None *)
  solve_count : nat;
  current_scramble : string;
  solve_times : seq (float F);
  time_elapsed : float F;
  timer_state : string;
  ui : seq ui_call               (* the widget calls made so far *)
}.

Definition call_ui (c : ui_call) (a : app) : app :=
  App (start_time a) (timer_interval a) (solve_count a) (current_scramble a)
      (solve_times a) (time_elapsed a) (timer_state a) (rcons (ui a) c).

(** [__init__], then [compose], which fetches the first scramble. *)
Definition app_init (d : draws) (solve : string -> reply) : outcome app :=
  let* initial_scramble := get_scramble d solve in
  Ret (App (f_zero F) false 0 initial_scramble [::] (f_zero F) "IDLE" [::]).

Definition update_timer (now : float F) (a : app) : app :=
  let time_elapsed := f_sub now (start_time a) in
  let a := App (start_time a) (timer_interval a) (solve_count a)
               (current_scramble a) (solve_times a) time_elapsed
               (timer_state a) (ui a) in
  call_ui (TimerUpdate (format_time time_elapsed)) a.

Definition start_timer (now : float F) (a : app) : app :=
  let a := App now (timer_interval a) (solve_count a) (current_scramble a)
               (solve_times a) (time_elapsed a) "RUNNING" (ui a) in
  let a := call_ui (TimerRemoveClass "idle") a in
  let a := call_ui (TimerAddClass "running") a in
  App (start_time a) true (solve_count a) (current_scramble a)
      (solve_times a) (time_elapsed a) (timer_state a) (ui a).

Definition calculate_ao5 (a : app) : string :=
  if size (solve_times a) < 5 then "N/A"%string
  else
    let last_5 := drop (size (solve_times a) - 5) (solve_times a) in
    let sorted_solves := f_sorted last_5 in
    let middle_3 := take 3 (drop 1 sorted_solves) in
    let avg := f_div (f_sum middle_3) 3 in
    format_time avg.

Definition calculate_mean (a : app) : string :=
  if solve_times a is [::] then "N/A"%string
  else format_time (f_div (f_sum (solve_times a)) (size (solve_times a))).

Definition update_stats (a : app) : app :=
  let mean_str := calculate_mean a in
  let ao5_str := calculate_ao5 a in
  call_ui (StatsUpdate ("Count: " ++ str_of_nat (solve_count a) ++ newline
                        ++ newline ++ "Mean: " ++ mean_str ++ newline
                        ++ "Ao5:  " ++ ao5_str)%string) a.

Definition log_solve (solve_time : float F) (a : app) : app :=
  let a := App (start_time a) (timer_interval a) (solve_count a + 1)
               (current_scramble a) (rcons (solve_times a) solve_time)
               (time_elapsed a) (timer_state a) (ui a) in
  let a := call_ui (TableAddRow [:: str_of_nat (solve_count a);
                                    format_time solve_time;
                                    current_scramble a]
                                (str_of_nat (solve_count a))) a in
  let a := call_ui TableScrollEnd a in
  update_stats a.

Definition action_new_scramble (d : draws) (solve : string -> reply) (a : app)
  : outcome app :=
  let* new_scramble := get_scramble d solve in
  let a := App (start_time a) (timer_interval a) (solve_count a) new_scramble
               (solve_times a) (time_elapsed a) (timer_state a) (ui a) in
  Ret (call_ui (ScrambleUpdate new_scramble) a).

Definition action_clear_history (a : app) : app :=
  let a := call_ui TableClear a in
  let a := App (start_time a) (timer_interval a) 0 (current_scramble a)
               [::] (time_elapsed a) (timer_state a) (ui a) in
  update_stats a.

Definition stop_timer (now : float F) (d : draws) (solve : string -> reply)
    (a : app) : outcome app :=
  let a := App (start_time a) (timer_interval a) (solve_count a)
               (current_scramble a) (solve_times a) (time_elapsed a)
               "IDLE" (ui a) in
  let a := if timer_interval a then
             let a := call_ui IntervalStop a in
             App (start_time a) false (solve_count a) (current_scramble a)
                 (solve_times a) (time_elapsed a) (timer_state a) (ui a)
           else a in
  let final_time := f_sub now (start_time a) in
  let a := App (start_time a) (timer_interval a) (solve_count a)
               (current_scramble a) (solve_times a) final_time
               (timer_state a) (ui a) in
  let a := call_ui (TimerUpdate (format_time final_time)) a in
  let a := call_ui (TimerRemoveClass "running") a in
  let a := call_ui (TimerAddClass "idle") a in
  let a := log_solve final_time a in
  action_new_scramble d solve a.

(** [on_key], for the key [key]; [now] is what [time.monotonic()]
    gives if it is called, [d] and [solve] are what a call of
    [get_scramble] works with. *)
Definition on_key (key : string) (now : float F) (d : draws)
    (solve : string -> reply) (a : app) : outcome app :=
  if key == "space"%string then
    if timer_state a == "RUNNING"%string then stop_timer now d solve a
    else if timer_state a == "IDLE"%string then Ret (start_timer now a)
    else Ret a
  else if key == "q"%string then Ret (call_ui AppExit a)
  else Ret a.

(** What the application is asked to do: a key press, one of the two
    bound actions, or a tick of the interval timer. *)
Inductive event : Type :=
| Key (key : string)
| NewScramble
| ClearHistory
| Tick.

(** An event with the clock reading and the scrambler's inputs at the
    time it is handled. *)
Record input : Type := Input {
  in_event : event;
  in_now : float F;
  in_draws : draws;
  in_solve : string -> reply
}.

Definition handle (i : input) (a : app) : outcome app :=
  match in_event i with
  | Key key => on_key key (in_now i) (in_draws i) (in_solve i) a
  | NewScramble => action_new_scramble (in_draws i) (in_solve i) a
  | ClearHistory => Ret (action_clear_history a)
  | Tick => Ret (update_timer (in_now i) a)
  end.

(** The application from its start through a list of events. *)
Definition session (d : draws) (solve : string -> reply) (ins : seq input)
  : outcome app :=
  let* a := app_init d solve in
  for_each ins handle a.

End App.

(** The keys of the rows that are in the table: those added since the
    last [clear]. *)
Definition table_keys (log : seq ui_call) : seq string :=
  foldl (fun keys c =>
           match c with
           | TableClear => [::]
           | TableAddRow _ key => rcons keys key
           | _ => keys
           end) [::] log.

(** The rows that are in the table. *)
Definition table_rows (log : seq ui_call) : seq (seq string) :=
  foldl (fun rows c =>
           match c with
           | TableClear => [::]
           | TableAddRow cells _ => rcons rows cells
           | _ => rows
           end) [::] log.

(** The text of the last [StatsDisplay.update], if there was one. *)
Definition last_stats (log : seq ui_call) : option string :=
  foldl (fun last c => if c is StatsUpdate text then Some text else last)
        None log.

(** The text of the last [ScrambleDisplay.update], if there was one. *)
Definition last_scramble (log : seq ui_call) : option string :=
  foldl (fun last c => if c is ScrambleUpdate text then Some text else last)
        None log.

(** The text [update_stats] shows for a state. *)
Definition stats_text (F : float_ops) (a : app F) : string :=
  ("Count: " ++ str_of_nat (solve_count a) ++ newline ++ newline
   ++ "Mean: " ++ calculate_mean a ++ newline
   ++ "Ao5:  " ++ calculate_ao5 a)%string.

(** What is kept between the attributes and the table: the counter is
    the number of recorded times, the rows in the table have the keys
    "1", "2", ... up to the counter, each row starts with its key, and
    the timer is idle or running. *)
Definition bookkeeping (F : float_ops) (a : app F) : Prop :=
  [/\ solve_count a = size (solve_times a),
      table_keys (ui a) = [seq str_of_nat k | k <- iota 1 (solve_count a)],
      [seq head EmptyString row | row <- table_rows (ui a)]
      = table_keys (ui a)
    & timer_state a \in [:: "IDLE"; "RUNNING"]%string].

(** What the two text widgets show agrees with the attributes: the
    last statistics text is the one of the present counter and times
    (before the first update there is no solve), and the last scramble
    text is the present scramble (before the first update it is the
    scramble [first] the widget was made with). *)
Definition display_in_sync (F : float_ops) (first : string) (a : app F)
  : Prop :=
  match last_stats (ui a) with
  | Some text => text = stats_text a
  | None => solve_count a = 0 /\ solve_times a = [::]
  end
  /\ current_scramble a = odflt first (last_scramble (ui a)).

(** Every solver that the events of a session bring is handled. *)
Definition solvers_handled (F : float_ops) (ins : seq (input F)) : Prop :=
  forall i, List.In i ins -> solver_handled (in_solve i).

(** A press of the space bar. *)
Definition is_space_key (F : float_ops) (i : input F) : bool :=
  if in_event i is Key key then key == "space"%string else false.

Definition is_clear (F : float_ops) (i : input F) : bool :=
  if in_event i is ClearHistory then true else false.

(** ** Concrete inputs on which the statements are exercised *)

Definition sample_draws : draws :=
  Draws [:: 1; 0; 3; 2; 5; 6; 7; 4]
        [:: 11; 10; 9; 8; 7; 6; 5; 4; 3; 2; 1; 0]
        [:: 1; 2; 0; 1; 2; 2; 1]
        [:: 1; 1; 0; 0; 1; 0; 1; 0; 1; 1; 1].

Definition sample_state : cube_state :=
  CubeState [:: 1; 0; 3; 2; 5; 6; 7; 4]
            [:: 1; 2; 0; 1; 2; 2; 1; 0]
            [:: 10; 11; 9; 8; 7; 6; 5; 4; 3; 2; 1; 0]
            [:: 1; 1; 0; 0; 1; 0; 1; 0; 1; 1; 1; 1].

(** Floats replaced by whole numbers of hundredths of a second, to run
    the application on. *)
Definition sample_float_ops : float_ops :=
  FloatOps 0 subn sumn divn (sort leq) str_of_nat.

Definition sample_inputs : seq (input sample_float_ops) :=
  let solve := fun _ : string => Solution "R U R' F2" in
  let at_time (e : event) (now : nat) :=
    @Input sample_float_ops e now sample_draws solve in
  [:: at_time (Key "space") 100;
      at_time Tick 103;
      at_time (Key "space") 1234;
      at_time (Key "s") 1300;
      at_time NewScramble 1300;
      at_time (Key "space") 2000].

Definition sample_running_app : app sample_float_ops :=
  @App sample_float_ops 100 true 2 "R U R'" [:: 1234; 987] 103 "RUNNING"
       [:: TableAddRow [:: "1"; "1234"; "F2 U"]%string "1";
           TableAddRow [:: "2"; "987"; "L D'"]%string "2"].
(** * Verification *)

(** Linear arithmetic on [nat] through the standard order and operations. *)
Ltac to_coq_nat :=
  match goal with
  | |- is_true (_ <= _) => apply/leP
  | |- is_true (_ == _) => apply/eqP
  | |- _ => idtac
  end;
  repeat match goal with
  | H : is_true (_ <= _) |- _ => move/leP: H
  | H : is_true (_ == _) |- _ => move/eqP: H
  | H : @eq nat _ _ |- _ => move: H
  end;
  rewrite -?plusE -?minusE -?multE /=.
Ltac nat_lia := to_coq_nat; lia.

(** ** Facts about the list operations *)

Section PyListFacts.
Variable T : Type.
Implicit Types (l : seq T) (i k : nat) (v d : T).

Lemma lookup_nth d l i :
  lookup l i = if i < size l then Some (nth d l i) else None.
Proof. by elim: l i => [|x l IH] [|i] //=; rewrite IH ltnS. Qed.

Lemma getitem_nth d l i : i < size l -> getitem l i = Ret (nth d l i).
Proof. by move=> lt_i; rewrite /getitem (lookup_nth d) lt_i. Qed.

Lemma getitem_out l i :
  size l <= i -> getitem l i = Raise (Exn IndexError "list index out of range").
Proof.
move=> le_i; rewrite /getitem.
by case: l le_i => [|x l] // le_i; rewrite (lookup_nth x) ltnNge le_i.
Qed.

Lemma size_update l i v : size (update l i v) = size l.
Proof. by elim: l i => [|x l IH] [|i] //=; rewrite IH. Qed.

Lemma nth_update d l i v k :
  i < size l -> nth d (update l i v) k = if k == i then v else nth d l k.
Proof.
elim: l i k => [|x l IH] [|i] [|k] //=.
by rewrite ltnS eqSS; apply: IH.
Qed.

Lemma update_set_nth d l i v : i < size l -> update l i v = set_nth d l i v.
Proof. by elim: l i => [|x l IH] [|i] //=; rewrite ltnS => /IH->. Qed.

End PyListFacts.

Lemma count_unvisited (visited : seq bool) (j : nat) :
  j < size visited -> nth false visited j = false ->
  count negb visited = (count negb (update visited j true)).+1.
Proof.
elim: visited j => [|b visited IH] [|j] //=.
  by move=> _ ->.
by rewrite ltnS => lt_j /(IH _ lt_j)->; rewrite addnS.
Qed.

(** A loop over [range n] keeps an invariant that may mention the index.
    A step may raise only if [Bad] holds, and never runs out of fuel. *)
Lemma for_range_inv (St : Type) (Inv : nat -> St -> Prop) (Bad : Prop)
    (body : nat -> St -> outcome St) (n : nat) (st : St) :
  (forall i s, i < n -> Inv i s ->
     match body i s with
     | Ret s' => Inv i.+1 s'
     | Raise _ => Bad
     | Diverge => False
     end) ->
  Inv 0 st ->
  match for_each (range n) body st with
  | Ret s' => Inv n s'
  | Raise _ => Bad
  | Diverge => False
  end.
Proof.
move=> step; rewrite /range.
suff from m r s : m + r = n -> Inv m s ->
    match for_each (iota m r) body s with
    | Ret s' => Inv n s'
    | Raise _ => Bad
    | Diverge => False
    end by apply: from.
elim: r m s => [|r IH] m s /=; first by rewrite addn0 => <-.
rewrite addnS => def_n inv_m.
have lt_m : m < n by rewrite -def_n ltnS leq_addr.
case: (body m s) (step m s lt_m inv_m) => [s'|e|] //= inv_s'.
by apply: IH; rewrite ?addSn.
Qed.

(** ** Termination of get_permutation_parity *)

Section ParityTotal.
Variable perm : seq nat.
Let n := size perm.
Let in_range := all (fun x => x < n) perm.

(** The while loop marks one unvisited index per iteration: it ends
    within as many iterations as there are unvisited indices, and uses
    one unit of fuel for each index it marks.  It can raise only when
    an entry of [perm] is outside [0, n). *)
Lemma follow_cycle_total (fuel : nat) (visited : seq bool) (j : nat) :
  size visited = n -> count negb visited <= fuel ->
  match follow_cycle fuel perm visited j with
  | Ret (visited', _, fuel') =>
      [/\ size visited' = n,
          fuel' + count negb visited = fuel + count negb visited'
        & count negb visited' + ~~ nth true visited j <= count negb visited]
  | Raise _ => ~~ (in_range && (j < n))
  | Diverge => False
  end.
Proof.
elim: fuel visited j => [|fuel IH] visited j sz_v le_fuel /=.
- case: (ltnP j (size visited)) => [lt_j|le_j]; last first.
    by rewrite getitem_out //= -sz_v ltnNge le_j andbF.
  rewrite (getitem_nth false lt_j) /=.
  case v_j: (nth false visited j) => /=.
    by rewrite (set_nth_default false) // v_j addn0.
  by rewrite (count_unvisited lt_j v_j) in le_fuel.
- case: (ltnP j (size visited)) => [lt_j|le_j]; last first.
    by rewrite getitem_out //= -sz_v ltnNge le_j andbF.
  rewrite (getitem_nth false lt_j) /=.
  case v_j: (nth false visited j) => /=.
    by rewrite (set_nth_default false) // v_j addn0.
  have cnt := count_unvisited lt_j v_j.
  have lt_jn : j < size perm by move: lt_j; rewrite sz_v.
  rewrite /setitem lt_j /= (getitem_nth 0 lt_jn) /=.
  rewrite cnt ltnS in le_fuel.
  have := IH (update visited j true) (nth 0 perm j) _ le_fuel.
  rewrite size_update => /(_ sz_v).
  case: (follow_cycle _ _ _ _) => [[[visited' j'] fuel']|e|] //.
    case=> sz' eq_fuel le_cnt; split=> //; first by rewrite cnt addnS eq_fuel.
    rewrite (set_nth_default false) // v_j addn1 cnt ltnS.
    exact: leq_trans (leq_addr _ _) le_cnt.
  apply: contra => /andP[inr _]; rewrite inr /=.
  by move/all_nthP: inr; apply.
Qed.

Lemma parity_loop_total (fuel : nat) :
  n <= fuel ->
  match parity_loop fuel perm with
  | Ret (visited, cycles, rest) =>
      [/\ size visited = n, cycles + count negb visited <= n
         & rest + n = fuel + count negb visited]
  | Raise _ => ~~ in_range
  | Diverge => False
  end.
Proof.
move=> le_fuel; rewrite /parity_loop -/n.
pose Inv (i : nat) (st : seq bool * nat * nat) :=
  let '(visited, cycles, rest) := st in
  [/\ size visited = n, cycles + count negb visited <= n
     & rest + n = fuel + count negb visited].
apply: (@for_range_inv _ Inv); last first.
  by rewrite /Inv size_nseq add0n count_nseq /= mul1n.
move=> i [[visited cycles] rest] lt_i [sz_v le_n eq_rest].
rewrite /parity_body (getitem_nth false) ?sz_v //=.
case v_i: (nth false visited i) => //=.
have le_rest : count negb visited <= rest.
  by rewrite -(leq_add2r n) eq_rest addnC leq_add2r.
have := follow_cycle_total i sz_v le_rest.
case: (follow_cycle _ _ _ _) => [[[visited' j'] rest']|e|] //=; last first.
  by rewrite lt_i andbT.
rewrite (set_nth_default false) ?sz_v // v_i addn1 => -[sz' eq' lt'].
by rewrite /= in lt'; split=> //; nat_lia.
Qed.

(** More fuel changes nothing but the fuel that is handed back. *)
Lemma follow_cycle_more (k fuel : nat) (visited : seq bool) (j : nat) :
  match follow_cycle fuel perm visited j with
  | Ret (visited', j', rest) =>
      follow_cycle (fuel + k) perm visited j = Ret (visited', j', rest + k)
  | Raise e => follow_cycle (fuel + k) perm visited j = Raise e
  | Diverge => True
  end.
Proof.
elim: fuel visited j => [|fuel IH] visited j.
  by rewrite add0n; case: k => [|k] /=; case: (getitem visited j) => //= -[].
rewrite addSn /=; case: (getitem visited j) => //= -[] //=.
case: (setitem visited j true) => //= visited1.
by case: (getitem perm j) => //= j1; apply: IH.
Qed.

Lemma parity_loop_more (k fuel : nat) :
  match parity_loop fuel perm with
  | Ret (visited, cycles, rest) =>
      parity_loop (fuel + k) perm = Ret (visited, cycles, rest + k)
  | Raise e => parity_loop (fuel + k) perm = Raise e
  | Diverge => True
  end.
Proof.
rewrite /parity_loop; move: (nseq _ _) 0 (range _) => visited cycles xs.
elim: xs visited cycles fuel => [|i xs IH] visited cycles fuel //=.
case: (getitem visited i) => //= -[] /=; first exact: IH.
have := follow_cycle_more k fuel visited i.
case: (follow_cycle fuel _ _ _) => [[[visited' j'] rest]|e|] //= -> //=.
exact: IH.
Qed.

Lemma get_permutation_parity_more (k fuel : nat) :
  get_permutation_parity_fuel fuel perm <> Diverge ->
  get_permutation_parity_fuel (fuel + k) perm
  = get_permutation_parity_fuel fuel perm.
Proof.
rewrite /get_permutation_parity_fuel; have := parity_loop_more k fuel.
by case: (parity_loop fuel perm) => [[[visited cycles] rest]|e|] //= ->.
Qed.

End ParityTotal.

Lemma get_permutation_parity_returns (perm : seq nat) :
  get_permutation_parity perm <> Diverge.
Proof.
rewrite /get_permutation_parity /get_permutation_parity_fuel.
have := parity_loop_total (leqnn (size perm)).
by case: (parity_loop _ _) => [[[visited cycles] rest]|e|].
Qed.

(** C10. On a list of length [n] whose entries all lie in [0, n),
    bijective or not, [get_permutation_parity] comes back with a value
    in {0, 1} as soon as [n] executions of the while body are allowed:
    the executions that were used are as many as the entries that ended
    up marked, hence at most [n], and the counter [cycles] does not
    exceed [n].  Any larger allowance gives the same result. *)
Theorem get_permutation_parity_terminates (perm : seq nat) (fuel : nat) :
  all (fun x => x < size perm) perm -> size perm <= fuel ->
  exists visited cycles rest r,
    [/\ parity_loop fuel perm = Ret (visited, cycles, rest),
        size visited = size perm /\ fuel - rest = count id visited,
        fuel - rest <= size perm /\ cycles <= size perm,
        get_permutation_parity_fuel fuel perm = Ret r
        /\ get_permutation_parity perm = Ret r
      & r < 2].
Proof.
move=> in_range le_fuel.
have eq_fuel := get_permutation_parity_more (fuel - size perm)
                  (@get_permutation_parity_returns perm).
rewrite subnKC // in eq_fuel.
rewrite /get_permutation_parity -eq_fuel /get_permutation_parity_fuel.
have := parity_loop_total le_fuel.
case: (parity_loop _ _) => [[[visited cycles] rest]|e|] //=; last first.
  by rewrite in_range.
move=> [sz_v le_n eq_rest].
exists visited, cycles, rest, ((size perm - cycles) %% 2).
have := count_predC id visited; rewrite sz_v => eq_n.
have eq_negb : count negb visited = count (predC id) visited by [].
rewrite -eq_negb in eq_n.
split=> //; last by rewrite ltn_mod.
- by split=> //; nat_lia.
- by split; nat_lia.
Qed.

Lemma get_permutation_parity_terminates_witness :
  exists visited cycles rest r,
    [/\ parity_loop 5 [:: 2; 2; 0; 0] = Ret (visited, cycles, rest),
        size visited = 4 /\ 5 - rest = count id visited,
        5 - rest <= 4 /\ cycles <= 4,
        get_permutation_parity_fuel 5 [:: 2; 2; 0; 0] = Ret r
        /\ get_permutation_parity [:: 2; 2; 0; 0] = Ret r
      & r < 2].
Proof.
by apply: (@get_permutation_parity_terminates [:: 2; 2; 0; 0] 5).
Defined.

(** ** The parity that get_permutation_parity computes *)

Section ListOfPerm.
Variable n : nat.
Implicit Types (s : 'S_n) (V : {set 'I_n}) (x y : 'I_n).

Lemma size_list_of_perm s : size (list_of_perm s) = n.
Proof. by rewrite size_map size_enum_ord. Qed.

Lemma nth_list_of_perm s x : nth 0 (list_of_perm s) x = s x.
Proof.
by rewrite (nth_map x) ?size_enum_ord // nth_ord_enum.
Qed.

Lemma size_marks V : size (marks V) = n.
Proof. by rewrite size_map size_enum_ord. Qed.

Lemma nth_marks V x : nth false (marks V) x = (x \in V).
Proof. by rewrite (nth_map x) ?size_enum_ord // nth_ord_enum. Qed.

Lemma update_marks V x : update (marks V) x true = marks (x |: V).
Proof.
apply: (@eq_from_nth _ false); first by rewrite size_update !size_marks.
rewrite size_update size_marks => i lt_i.
rewrite nth_update ?size_marks // (nth_marks _ (Ordinal lt_i)) /=.
by rewrite (nth_marks _ (Ordinal lt_i)) !inE -val_eqE.
Qed.

Lemma getitem_list_of_perm s x : getitem (list_of_perm s) x = Ret (val (s x)).
Proof.
by rewrite (getitem_nth 0) ?size_list_of_perm // nth_list_of_perm.
Qed.

Lemma getitem_marks V x : getitem (marks V) x = Ret (x \in V).
Proof. by rewrite (getitem_nth false) ?size_marks // nth_marks. Qed.

Lemma setitem_marks V x : setitem (marks V) x true = Ret (marks (x |: V)).
Proof. by rewrite /setitem size_marks ltn_ord update_marks. Qed.

End ListOfPerm.

Section CycleCount.
Variables (n : nat) (s : 'S_n).
Implicit Types (V : {set 'I_n}) (x y : 'I_n).
Let perm := list_of_perm s.

(** The first [k] points on the way from [x]. *)
Let walked x k : {set 'I_n} := [set y in traject s x k].

Lemma walked_porbit x : walked x #|porbit s x| = porbit s x.
Proof. by apply/setP=> y; rewrite inE -porbit_traject. Qed.

Lemma walkedS x k : walked x k.+1 = iter k s x |: walked x k.
Proof.
by apply/setP=> y; rewrite in_set trajectSr mem_rcons in_setU1 in_set in_cons.
Qed.

Lemma iter_not_walked x k : k < #|porbit s x| -> iter k s x \notin walked x k.
Proof.
move=> lt_k; have := take_uniq k.+1 (uniq_traject_porbit s x).
by rewrite take_traject // trajectSr rcons_uniq inE => /andP[].
Qed.

(** Entered at an unvisited [x] while the marked set is closed under
    [s], the while loop marks the cycle of [x], one point per iteration,
    and stops when it is back at [x]. *)
Lemma follow_cycle_porbit V x fuel :
  (forall y, (s y \in V) = (y \in V)) -> x \notin V ->
  #|porbit s x| <= fuel ->
  follow_cycle fuel perm (marks V) x
  = Ret (marks (V :|: porbit s x), val x, fuel - #|porbit s x|).
Proof.
move=> closed_V notV_x.
have notV_iter k : iter k s x \notin V.
  by elim: k => [|k IH] //=; rewrite closed_V.
suff walk r k fuel' : k + r = #|porbit s x| -> r <= fuel' ->
    follow_cycle fuel' perm (marks (V :|: walked x k)) (iter k s x)
    = Ret (marks (V :|: porbit s x), val x, fuel' - r).
  move=> le_fuel; have := walk #|porbit s x| 0 fuel (add0n _) le_fuel.
  by rewrite /walked /= (_ : [set y in [::]] = set0) ?setU0 //; apply/setP=> y; rewrite !inE.
elim: r k fuel' => [|r IH] k fuel'.
  rewrite addn0 => -> _; rewrite iter_porbit walked_porbit subn0.
  have in_x : x \in V :|: porbit s x by rewrite inE porbit_id orbT.
  by case: fuel' => [|fuel'] /=; rewrite getitem_marks in_x.
rewrite addnS => def_m; case: fuel' => // fuel'; rewrite ltnS => le_r /=.
have lt_k : k < #|porbit s x| by rewrite -def_m ltnS leq_addr.
rewrite getitem_marks inE (negPf (notV_iter k)) (negPf (iter_not_walked lt_k)) /=.
rewrite setitem_marks /= getitem_list_of_perm /= setUCA -walkedS subSS.
by rewrite -iterS; apply: IH; rewrite ?addSn.
Qed.

(** The indices below [i], the cycles that meet them and the points of
    these cycles. *)
Let seen (i : nat) : {set 'I_n} := [set x : 'I_n | x < i].
Let cycles_upto (i : nat) : {set {set 'I_n}} := porbit s @: seen i.
Let marked (i : nat) : {set 'I_n} := cover (cycles_upto i).

Lemma seenS i (lt_i : i < n) : seen i.+1 = Ordinal lt_i |: seen i.
Proof.
by apply/setP=> y; rewrite !inE ltnS leq_eqVlt -val_eqE.
Qed.

Lemma mem_marked i y : (y \in marked i) = (porbit s y \in cycles_upto i).
Proof.
apply/bigcupP/imsetP=> [[B /imsetP[x seen_x ->] y_x]|[x seen_x eq_xy]].
  by exists x => //; apply/eqP; rewrite eq_porbit_mem.
exists (porbit s x); first exact: imset_f.
by rewrite -eq_xy porbit_id.
Qed.

Lemma marked_closed i y : (s y \in marked i) = (y \in marked i).
Proof.
by rewrite !mem_marked -{1}[s y]/((s ^+ 1)%g y) porbit_perm.
Qed.

Lemma cycles_uptoS i (lt_i : i < n) :
  cycles_upto i.+1 = porbit s (Ordinal lt_i) |: cycles_upto i.
Proof. by rewrite /cycles_upto seenS imsetU1. Qed.

Lemma markedS i (lt_i : i < n) :
  marked i.+1 = marked i :|: porbit s (Ordinal lt_i).
Proof.
by rewrite /marked cycles_uptoS /cover bigcup_setU big_set1 setUC.
Qed.

Lemma card_markedS i (lt_i : i < n) :
  Ordinal lt_i \notin marked i ->
  #|marked i.+1| = #|marked i| + #|porbit s (Ordinal lt_i)|.
Proof.
move=> not_i; rewrite markedS cardsU (_ : _ :&: _ = set0) ?cards0 ?subn0 //.
apply/setP=> y; rewrite !inE; apply/negP=> /andP[marked_y].
rewrite -eq_porbit_mem => /eqP eq_y; case/negP: not_i.
by rewrite mem_marked -eq_y -mem_marked.
Qed.

(** The outer loop counts the cycles: when it is left, every index is
    marked, [cycles] is the number of cycles of [s], and the while body
    has run [n] times. *)
Lemma parity_loop_porbits fuel :
  n <= fuel ->
  parity_loop fuel perm = Ret (marks [set: 'I_n], #|porbits s|, fuel - n).
Proof.
move=> le_fuel.
pose Inv i (st : seq bool * nat * nat) :=
  st = (marks (marked i), #|cycles_upto i|, fuel - #|marked i|).
have cy0 : cycles_upto 0 = set0.
  by rewrite /cycles_upto (_ : seen 0 = set0) ?imset0 //; apply/setP=> y; rewrite !inE.
have mk0 : marked 0 = set0 by rewrite /marked cy0 /cover big_set0.
have inv0 : Inv 0 (nseq n false, 0, fuel).
  rewrite /Inv cy0 mk0 !cards0 subn0; congr (_, _, _).
  apply: (@eq_from_nth _ false); first by rewrite size_nseq size_marks.
  rewrite size_nseq => i lt_i.
  by rewrite nth_nseq lt_i (nth_marks _ (Ordinal lt_i)) inE.
have step i st : i < n -> Inv i st ->
    match parity_body perm i st with
    | Ret st' => Inv i.+1 st'
    | Raise _ => False
    | Diverge => False
    end.
  move=> lt_i ->; rewrite /parity_body (getitem_marks _ (Ordinal lt_i)) /=.
  case: ifPn => [not_i|]; last first.
    rewrite negbK /= => in_i; rewrite /Inv markedS cycles_uptoS.
    have /setUidPr-> : [set porbit s (Ordinal lt_i)] \subset cycles_upto i.
      by rewrite sub1set -mem_marked.
    have /setUidPl-> // : porbit s (Ordinal lt_i) \subset marked i.
    apply/subsetP=> y; rewrite -eq_porbit_mem => /eqP eq_y.
    by rewrite mem_marked eq_y -mem_marked.
  have le_card : #|marked i.+1| <= n.
    by rewrite -[X in _ <= X]card_ord max_card.
  rewrite (card_markedS not_i) in le_card.
  have le_orb : #|porbit s (Ordinal lt_i)| <= fuel - #|marked i| by nat_lia.
  rewrite (follow_cycle_porbit (@marked_closed i) not_i le_orb) /=.
  rewrite /Inv -markedS (card_markedS not_i) subnDA cycles_uptoS cardsU1.
  by rewrite -mem_marked not_i addnC.
have := for_range_inv step inv0.
rewrite /parity_loop size_list_of_perm.
case: (for_each _ _ _) => [st|e|] // ->.
have -> : cycles_upto n = porbits s.
  by apply/setP=> B; apply/imsetP/imsetP=> -[x _ ->]; exists x; rewrite ?inE.
have -> // : marked n = [set: 'I_n].
  by apply/setP=> y; rewrite mem_marked !inE; apply/imsetP; exists y; rewrite ?inE.
by rewrite cardsT card_ord.
Qed.

Lemma get_permutation_parity_porbits :
  get_permutation_parity perm = Ret ((n - #|porbits s|) %% 2).
Proof.
rewrite /get_permutation_parity /get_permutation_parity_fuel.
by rewrite size_list_of_perm parity_loop_porbits.
Qed.

Lemma card_porbits_le : #|porbits s| <= n.
Proof. by rewrite -[X in _ <= X]card_ord leq_imset_card. Qed.

Lemma parity_odd_perm : (n - #|porbits s|) %% 2 = odd_perm s.
Proof. by rewrite modn2 oddB ?card_porbits_le // /odd_perm card_ord. Qed.

Lemma perm_list_of_perm : perm_eq perm (range n).
Proof.
rewrite /range -val_enum_ord /perm /list_of_perm (map_comp val s).
apply/perm_map/uniq_perm.
- by rewrite map_inj_uniq ?enum_uniq //; apply: perm_inj.
- exact: enum_uniq.
move=> y; rewrite mem_enum inE; apply/mapP; exists (s^-1%g y); rewrite ?permKV //.
by rewrite mem_enum.
Qed.

Lemma swap_list_of_perm (a b : 'I_n) :
  swap_entries perm a b = Ret (list_of_perm (tperm a b * s)).
Proof.
rewrite /swap_entries !getitem_list_of_perm /= /setitem.
rewrite size_list_of_perm ltn_ord /= size_update size_list_of_perm ltn_ord.
congr Ret.
apply: (@eq_from_nth _ 0); first by rewrite !size_update !size_list_of_perm.
rewrite !size_update size_list_of_perm => k lt_k.
rewrite !nth_update ?size_update ?size_list_of_perm //.
rewrite !(nth_list_of_perm _ (Ordinal lt_k)) permM.
rewrite -[k]/(val (Ordinal lt_k)) !val_eqE.
by case: tpermP => [->|->|/eqP/negPf-> /eqP/negPf->] //; rewrite eqxx //; case: eqP => // ->.
Qed.

End CycleCount.

Lemma list_of_perm_exists (n : nat) (l : seq nat) :
  perm_eq l (range n) -> exists s : 'S_n, l = list_of_perm s.
Proof.
move=> perm_l.
have sz_l : size l = n by rewrite (perm_size perm_l) size_iota.
have lt_l i : i < n -> nth 0 l i < n.
  by rewrite -{1}sz_l => /(mem_nth 0); rewrite (perm_mem perm_l) mem_iota.
have uniq_l : uniq l by rewrite (perm_uniq perm_l) iota_uniq.
pose f (i : 'I_n) : 'I_n := insubd i (nth 0 l i).
have val_f i : val (f i) = nth 0 l i by apply: insubdK; apply: lt_l.
have inj_f : injective f.
  move=> i j /(congr1 val); rewrite !val_f => /eqP.
  by rewrite nth_uniq ?sz_l // => /eqP/val_inj.
exists (perm inj_f); apply: (@eq_from_nth _ 0); rewrite ?size_list_of_perm //.
rewrite sz_l => i lt_i.
by rewrite (nth_list_of_perm _ (Ordinal lt_i)) permE val_f.
Qed.


(** C7. On a list that is a permutation of [0, n), get_permutation_parity
    returns [(n - c) mod 2] where [c] is the number of cycles of the
    permutation the list writes out; this is 1 exactly when the
    permutation is odd, that is when it is a product of an odd number
    of transpositions. *)
Theorem get_permutation_parity_correct (n : nat) (perm : seq nat) :
  perm_eq perm (range n) ->
  exists s : 'S_n,
    [/\ perm = list_of_perm s,
        get_permutation_parity perm = Ret ((n - #|porbits s|) %% 2),
        (n - #|porbits s|) %% 2 = odd_perm s
      & forall ts : seq ('I_n * 'I_n), all dpair ts ->
          s = (\prod_(t <- ts) tperm t.1 t.2)%g ->
          (n - #|porbits s|) %% 2 = odd (size ts)].
Proof.
case/list_of_perm_exists=> s ->; exists s; split=> //.
- exact: get_permutation_parity_porbits.
- exact: parity_odd_perm.
by move=> ts dp_ts def_s; rewrite parity_odd_perm def_s odd_perm_prod.
Qed.

Lemma get_permutation_parity_correct_witness :
  exists s : 'S_5,
    [/\ [:: 1; 2; 0; 4; 3] = list_of_perm s,
        get_permutation_parity [:: 1; 2; 0; 4; 3]
        = Ret ((5 - #|porbits s|) %% 2),
        (5 - #|porbits s|) %% 2 = odd_perm s
      & forall ts : seq ('I_5 * 'I_5), all dpair ts ->
          s = (\prod_(t <- ts) tperm t.1 t.2)%g ->
          (5 - #|porbits s|) %% 2 = odd (size ts)].
Proof.
by apply: (@get_permutation_parity_correct 5 [:: 1; 2; 0; 4; 3]).
Defined.

(** ** The generated cube state *)

(** Exchanging two entries of a permutation list gives a permutation
    list of the other parity. *)
Lemma swap_entries_parity (n : nat) (l : seq nat) (i j : nat) :
  perm_eq l (range n) -> i < n -> j < n -> i != j ->
  exists p l',
    [/\ get_permutation_parity l = Ret p, p < 2,
        swap_entries l i j = Ret l', perm_eq l' (range n)
      & get_permutation_parity l' = Ret ((p + 1) %% 2)].
Proof.
case/list_of_perm_exists=> s -> lt_i lt_j ne_ij.
exists (odd_perm s), (list_of_perm (tperm (Ordinal lt_i) (Ordinal lt_j) * s)).
split.
- by rewrite get_permutation_parity_porbits parity_odd_perm.
- by case: (odd_perm s).
- exact: (swap_list_of_perm s (Ordinal lt_i) (Ordinal lt_j)).
- exact: perm_list_of_perm.
rewrite get_permutation_parity_porbits parity_odd_perm odd_mul_tperm.
by rewrite -val_eqE /= ne_ij; case: (odd_perm s).
Qed.

Lemma parity_of_perm (n : nat) (l : seq nat) :
  perm_eq l (range n) ->
  exists2 p, get_permutation_parity l = Ret p & p < 2.
Proof.
case/list_of_perm_exists=> s ->; exists (odd_perm s); last by case: odd_perm.
by rewrite get_permutation_parity_porbits parity_odd_perm.
Qed.

Lemma sum_fixed_last (m k : nat) : 0 < m -> (k + (m - k %% m) %% m) %% m = 0.
Proof.
move=> m_gt0; rewrite modnDmr -modnDml subnKC ?modnn //.
exact/ltnW/ltn_pmod.
Qed.

(** What the generator builds from valid draws. *)
Lemma generate_state_valid (d : draws) :
  valid_draws d ->
  exists pc pe ep',
    [/\ get_permutation_parity (shuffled_cp d) = Ret pc,
        get_permutation_parity (shuffled_ep d) = Ret pe,
        (if pc != pe then swap_entries (shuffled_ep d) 0 1
         else Ret (shuffled_ep d)) = Ret ep',
        perm_eq ep' (range 12) /\ get_permutation_parity ep' = Ret pc
      & generate_state d
        = Ret (CubeState (shuffled_cp d)
                 (rcons (drawn_co d) ((3 - sumn (drawn_co d) %% 3) %% 3))
                 ep'
                 (rcons (drawn_eo d) ((2 - sumn (drawn_eo d) %% 2) %% 2)))].
Proof.
case/and5P=> perm_cp perm_ep _ _ _.
have [pc def_pc lt_pc] := parity_of_perm perm_cp.
have [pe [ep1 [def_pe lt_pe def_ep1 perm_ep1 par_ep1]]] :=
  @swap_entries_parity 12 (shuffled_ep d) 0 1 perm_ep isT isT isT.
exists pc, pe, (if pc != pe then ep1 else shuffled_ep d).
rewrite /generate_state def_pc def_pe /=.
case: eqP => [eq_p|/eqP ne_p] /=; first by rewrite eq_p.
rewrite def_ep1 /=; split=> //; split=> //; rewrite par_ep1; congr Ret.
by case: pc pe lt_pc lt_pe ne_p {def_pc def_pe par_ep1} => [|[|pc]] [|[|pe]].
Qed.

(** C2. In every state the generator builds, the corner permutation and
    the edge permutation have the same parity.  The edge permutation is
    the shuffled one when the two shuffled lists agree in parity, and
    the shuffled one with its first two entries exchanged otherwise;
    exchanging any two entries of the shuffled edge list changes its
    parity. *)
Theorem generated_parities_agree (d : draws) :
  valid_draws d ->
  exists st pc pe,
    [/\ generate_state d = Ret st,
        get_permutation_parity (shuffled_cp d) = Ret pc
        /\ get_permutation_parity (shuffled_ep d) = Ret pe,
        cp st = shuffled_cp d
        /\ (if pc != pe then swap_entries (shuffled_ep d) 0 1
            else Ret (shuffled_ep d)) = Ret (ep st),
        get_permutation_parity (cp st) = Ret pc
        /\ get_permutation_parity (ep st) = Ret pc
      & forall i j, i < 12 -> j < 12 -> i != j ->
        exists2 ep', swap_entries (shuffled_ep d) i j = Ret ep'
                   & get_permutation_parity ep' = Ret ((pe + 1) %% 2)].
Proof.
move=> valid_d.
have [pc [pe [ep' [def_pc def_pe def_ep' [_ par_ep'] def_st]]]] :=
  generate_state_valid valid_d.
exists (CubeState (shuffled_cp d)
          (rcons (drawn_co d) ((3 - sumn (drawn_co d) %% 3) %% 3)) ep'
          (rcons (drawn_eo d) ((2 - sumn (drawn_eo d) %% 2) %% 2))), pc, pe.
split=> // i j lt_i lt_j ne_ij.
case/and5P: valid_d => _ perm_ep _ _ _.
have [p [ep1 [def_p _ def_ep1 _ par_ep1]]] :=
  swap_entries_parity perm_ep lt_i lt_j ne_ij.
by exists ep1 => //; move: def_p; rewrite def_pe => -[->].
Qed.

Lemma generated_parities_agree_witness :
  exists st pc pe,
    [/\ generate_state sample_draws = Ret st,
        get_permutation_parity (shuffled_cp sample_draws) = Ret pc
        /\ get_permutation_parity (shuffled_ep sample_draws) = Ret pe,
        cp st = shuffled_cp sample_draws
        /\ (if pc != pe then swap_entries (shuffled_ep sample_draws) 0 1
            else Ret (shuffled_ep sample_draws)) = Ret (ep st),
        get_permutation_parity (cp st) = Ret pc
        /\ get_permutation_parity (ep st) = Ret pc
      & forall i j, i < 12 -> j < 12 -> i != j ->
        exists2 ep', swap_entries (shuffled_ep sample_draws) i j = Ret ep'
                   & get_permutation_parity ep' = Ret ((pe + 1) %% 2)].
Proof.
apply: (@generated_parities_agree sample_draws).
by vm_compute.
Defined.

(** C3. In every state the generator builds, the corner orientations
    are the 7 drawn values followed by [(3 - (sum mod 3)) mod 3], the
    edge orientations are the 11 drawn values followed by
    [(2 - (sum mod 2)) mod 2], all of them are in range, and the two
    sums are 0 modulo 3 and modulo 2. *)
Theorem generated_orientation_sums (d : draws) :
  valid_draws d ->
  exists st,
    [/\ generate_state d = Ret st,
        co st = rcons (drawn_co d) ((3 - sumn (drawn_co d) %% 3) %% 3)
        /\ eo st = rcons (drawn_eo d) ((2 - sumn (drawn_eo d) %% 2) %% 2),
        size (co st) = 8 /\ size (eo st) = 12,
        all (fun o => o < 3) (co st) /\ all (fun o => o < 2) (eo st)
      & sumn (co st) %% 3 = 0 /\ sumn (eo st) %% 2 = 0].
Proof.
move=> valid_d.
have [pc [pe [ep' [_ _ _ _ def_st]]]] := generate_state_valid valid_d.
case/and5P: valid_d => _ _ /eqP sz_co in_co /andP[/eqP sz_eo in_eo].
eexists; split; first exact: def_st.
- by [].
- by rewrite /= !size_rcons sz_co sz_eo.
- by rewrite /= !all_rcons in_co in_eo !ltn_mod.
by rewrite /= -!cats1 !sumn_cat /= !addn0 !sum_fixed_last.
Qed.

Lemma generated_orientation_sums_witness :
  exists st,
    [/\ generate_state sample_draws = Ret st,
        co st = rcons (drawn_co sample_draws)
                  ((3 - sumn (drawn_co sample_draws) %% 3) %% 3)
        /\ eo st = rcons (drawn_eo sample_draws)
                     ((2 - sumn (drawn_eo sample_draws) %% 2) %% 2),
        size (co st) = 8 /\ size (eo st) = 12,
        all (fun o => o < 3) (co st) /\ all (fun o => o < 2) (eo st)
      & sumn (co st) %% 3 = 0 /\ sumn (eo st) %% 2 = 0].
Proof.
apply: (@generated_orientation_sums sample_draws).
by vm_compute.
Defined.

(** ** The encoder *)

Lemma bind_Ret (A B : Type) (a : A) (k : A -> outcome B) :
  (let* x := Ret a in k x) = k a.
Proof. by []. Qed.

Section ForEachFacts.
Variables (T U St : Type).
Implicit Types (body : T -> St -> outcome St) (st : St).

Lemma for_each_cat xs ys body st :
  for_each (xs ++ ys) body st
  = let* st' := for_each xs body st in for_each ys body st'.
Proof.
elim: xs st => [|x xs IH] st //=.
by case: (body x st) => //= st'.
Qed.

Lemma for_each_map (g : U -> T) (us : seq U) body st :
  for_each [seq g u | u <- us] body st = for_each us (fun u => body (g u)) st.
Proof.
elim: us st => [|u us IH] st //=.
by case: (body (g u) st).
Qed.

End ForEachFacts.

Lemma eq_in_for_each (T : eqType) (St : Type) (xs : seq T)
    (body1 body2 : T -> St -> outcome St) (st : St) :
  {in xs, body1 =2 body2} -> for_each xs body1 st = for_each xs body2 st.
Proof.
elim: xs st => [|x xs IH] st //= eq_body.
rewrite eq_body ?mem_head //; case: (body2 x st) => //= st'.
by apply: IH => y in_y; apply: eq_body; rewrite inE in_y orbT.
Qed.

Lemma stores_cat (ws1 ws2 : seq (nat * string)) (f : canvas) :
  stores (ws1 ++ ws2) f = let* f' := stores ws1 f in stores ws2 f'.
Proof. exact: for_each_cat. Qed.

Lemma for_each_stores (T : Type) (g : T -> seq (nat * string)) (xs : seq T)
    (f : canvas) :
  for_each xs (fun x => stores (g x)) f = stores (flatten [seq g x | x <- xs]) f.
Proof.
elim: xs f => [|x xs IH] f //=.
by rewrite stores_cat; case: (stores (g x) f) => //= f'.
Qed.

(** Assignments within the list's bounds all succeed. *)
Lemma stores_in_range (ws : seq (nat * string)) (f : canvas) :
  all (fun w => w.1 < size (cells f)) ws ->
  stores ws f
  = Ret (Canvas (foldl (fun c w => update c w.1 w.2) (cells f) ws)
                (history f ++ [seq w.1 | w <- ws])).
Proof.
elim: ws f => [|w ws IH] [c h] /=; first by rewrite cats0.
case/andP=> lt_w in_ws; rewrite /stores /= /store /setitem /= lt_w /=.
by rewrite -/(stores ws _) IH /= ?size_update // cat_rcons.
Qed.

Lemma size_foldl_update (ws : seq (nat * string)) (c : seq string) :
  size (foldl (fun c w => update c w.1 w.2) c ws) = size c.
Proof. by elim: ws c => [|w ws IH] c //=; rewrite IH size_update. Qed.

Lemma nth_foldl_update_out (ws : seq (nat * string)) (c : seq string) (p : nat) :
  p \notin [seq w.1 | w <- ws] ->
  nth ""%string (foldl (fun c w => update c w.1 w.2) c ws) p
  = nth ""%string c p.
Proof.
elim: ws c => [|w ws IH] c //=; rewrite inE negb_or => /andP[ne_p out_p].
rewrite IH //; case: (ltnP w.1 (size c)) => [lt_w|le_w].
  by rewrite nth_update // (negPf ne_p).
suff -> : update c w.1 w.2 = c by [].
by elim: (c) (w.1) le_w => [|x c' IHc] [|i] //= /IHc->.
Qed.

(** When no index is assigned twice, each assignment is still in the
    list at the end. *)
Lemma nth_foldl_update (ws : seq (nat * string)) (c : seq string)
    (w : nat * string) :
  uniq [seq w.1 | w <- ws] -> all (fun w => w.1 < size c) ws -> w \in ws ->
  nth ""%string (foldl (fun c w => update c w.1 w.2) c ws) w.1 = w.2.
Proof.
elim: ws c => [|w0 ws IH] c //= /andP[out_w0 uniq_ws] /andP[lt_w0 in_ws].
rewrite inE => /orP[/eqP->|in_w].
  by rewrite nth_foldl_update_out // nth_update // eqxx.
by apply: IH => //; rewrite size_update.
Qed.

(** If the assignments hit every index of the list exactly once, the
    list ends up holding the assigned values, each at its index. *)
Lemma foldl_update_perm (ws : seq (nat * string)) (c : seq string) :
  perm_eq [seq w.1 | w <- ws] (range (size c)) ->
  perm_eq (foldl (fun c w => update c w.1 w.2) c ws) [seq w.2 | w <- ws].
Proof.
move=> perm_ws; set c' := foldl _ _ _.
have uniq_ws : uniq [seq w.1 | w <- ws] by rewrite (perm_uniq perm_ws) iota_uniq.
have in_ws : all (fun w => w.1 < size c) ws.
  apply/allP=> w in_w; have := map_f fst in_w.
  by rewrite (perm_mem perm_ws) mem_iota.
have -> : [seq w.2 | w <- ws] = [seq nth ""%string c' p | p <- [seq w.1 | w <- ws]].
  rewrite -map_comp; apply/eq_in_map=> w in_w /=.
  by rewrite nth_foldl_update.
rewrite perm_sym (perm_trans (perm_map _ perm_ws)) //.
have sz_c' : size c' = size c by rewrite size_foldl_update.
by rewrite -sz_c' /range -/(mkseq _ _) mkseq_nth.
Qed.

Lemma str_getitem_solved (idx : nat) :
  idx < 54 -> str_getitem solved_chars idx = Ret (solved_at idx).
Proof.
by do 54?[case: idx => [|idx] //].
Qed.

Lemma flatten_perm_pointwise (T : eqType) (xs : seq nat) (g h : nat -> seq T) :
  {in xs, forall i, perm_eq (g i) (h i)} ->
  perm_eq (flatten [seq g i | i <- xs]) (flatten [seq h i | i <- xs]).
Proof.
elim: xs => [|x xs IH] //= eq_gh.
apply: perm_cat; first by apply: eq_gh; rewrite mem_head.
by apply: IH => i in_i; apply: eq_gh; rewrite inE in_i orbT.
Qed.

Lemma all_flatten (T : Type) (P : pred T) (ss : seq (seq T)) :
  all P (flatten ss) = all (all P) ss.
Proof. by elim: ss => //= s ss <-; rewrite all_cat. Qed.

(** One placing loop, for a sticker table with rows of length [kmax]. *)
Section Place.
Variables (stickers : seq (seq nat)) (kmax : nat).
Hypothesis rows_ok : all (fun row => size row == kmax) stickers.
Hypothesis cols_ok : all (all (fun p => p < 54)) stickers.
Hypothesis turn_ok :
  forall o, perm_eq [seq (k + o) %% kmax | k <- range kmax] (range kmax).
Hypothesis kmax_gt0 : 0 < kmax.

Variables (perm ori : seq nat).
Let N := size stickers.
Hypothesis perm_ok : perm_eq perm (range N).
Hypothesis size_ori : size ori = N.

Let row (i : nat) : seq nat := nth [::] stickers i.

Local Notation piece_writes := (piece_writes stickers kmax perm ori).
Local Notation loop_writes := (loop_writes stickers kmax perm ori).

Lemma size_row i : i < N -> size (row i) = kmax.
Proof. by move=> lt_i; apply/eqP; move/all_nthP: rows_ok; apply. Qed.

Lemma row_in_range i k : i < N -> k < kmax -> nth 0 (row i) k < 54.
Proof.
move=> lt_i lt_k; have /all_nthP := cols_ok => /(_ [::] i lt_i).
by move/all_nthP; apply; rewrite size_row.
Qed.

Lemma size_perm : size perm = N.
Proof. by rewrite (perm_size perm_ok) size_iota. Qed.

Lemma perm_in_range i : i < N -> nth 0 perm i < N.
Proof.
rewrite -{1}size_perm => /(mem_nth 0).
by rewrite (perm_mem perm_ok) mem_iota.
Qed.

Lemma place_piece_writes i f :
  i < N -> place_piece stickers kmax perm ori i f = stores (piece_writes i) f.
Proof.
move=> lt_i; rewrite /place_piece.
rewrite (getitem_nth 0) ?size_perm // (getitem_nth 0) ?size_ori //=.
rewrite (getitem_nth [::]) // (getitem_nth [::]) ?perm_in_range //=.
rewrite /stores /piece_writes for_each_map; apply: eq_in_for_each => k.
rewrite mem_iota /= add0n => lt_k f'.
rewrite (getitem_nth 0) ?size_row //= str_getitem_solved ?row_in_range //=.
by rewrite (getitem_nth 0) ?size_row ?perm_in_range ?ltn_pmod.
Qed.

Lemma place_loop_writes f :
  for_each (range N) (place_piece stickers kmax perm ori) f
  = stores loop_writes f.
Proof.
rewrite /loop_writes -for_each_stores; apply: eq_in_for_each => i.
by rewrite mem_iota /= add0n => lt_i f'; apply: place_piece_writes.
Qed.

(** The loop assigns the table's indices, each once. *)
Lemma loop_writes_indices :
  perm_eq [seq w.1 | w <- loop_writes] (flatten stickers).
Proof.
rewrite /loop_writes map_flatten -map_comp.
have /perm_trans-> // :
    perm_eq (flatten [seq [seq w.1 | w <- piece_writes i] | i <- range N])
            (flatten [seq row (nth 0 perm i) | i <- range N]).
  apply: flatten_perm_pointwise => i; rewrite mem_iota /= add0n => lt_i.
  rewrite /piece_writes -map_comp.
  rewrite (eq_map (g := nth 0 (row (nth 0 perm i)) \o
                        (fun k => (k + nth 0 ori i) %% kmax))) //.
  rewrite map_comp (perm_trans (perm_map _ (turn_ok _))) //.
  by rewrite -(size_row (perm_in_range lt_i)) /range -/(mkseq _ _) mkseq_nth.
apply: perm_flatten.
have -> : [seq row (nth 0 perm i) | i <- range N] = [seq row t | t <- perm].
  by rewrite (map_comp row) -size_perm /range -/(mkseq _ _) mkseq_nth.
rewrite (perm_trans (perm_map _ perm_ok)) //.
by rewrite /row /range -/(mkseq _ _) mkseq_nth.
Qed.

(** The values it assigns are the solved characters in table order. *)
Lemma loop_writes_values :
  [seq w.2 | w <- loop_writes] = [seq solved_at p | p <- flatten stickers].
Proof.
rewrite /loop_writes !map_flatten -!map_comp.
rewrite -[in RHS](mkseq_nth [::] stickers) /mkseq -map_comp -/N.
congr flatten; apply/eq_in_map=> i; rewrite mem_iota /= add0n => lt_i.
rewrite /piece_writes -map_comp -[in RHS](mkseq_nth 0 (nth [::] stickers i)).
by rewrite /mkseq -map_comp -/(row i) size_row.
Qed.

Lemma loop_writes_in_range : all (fun w => w.1 < 54) loop_writes.
Proof.
rewrite -(all_map fst (fun p => p < 54)) (perm_all _ loop_writes_indices).
by rewrite all_flatten.
Qed.

End Place.

Lemma turn3 (o : nat) : perm_eq [seq (k + o) %% 3 | k <- range 3] (range 3).
Proof.
have -> : [seq (k + o) %% 3 | k <- range 3]
          = [seq (k + o %% 3) %% 3 | k <- range 3].
  by apply: eq_map => k; rewrite modnDmr.
by case: (o %% 3) (ltn_pmod o (isT : 0 < 3)) => [|[|[|]]].
Qed.

Lemma turn2 (o : nat) : perm_eq [seq (k + o) %% 2 | k <- range 2] (range 2).
Proof.
have -> : [seq (k + o) %% 2 | k <- range 2]
          = [seq (k + o %% 2) %% 2 | k <- range 2].
  by apply: eq_map => k; rewrite modnDmr.
by case: (o %% 2) (ltn_pmod o (isT : 0 < 2)) => [|[|]].
Qed.

Lemma center_loop_writes (f : canvas) :
  center_loop f = stores [seq (p, solved_at p) | p <- center_indices] f.
Proof.
rewrite /center_loop /stores for_each_map; apply: eq_in_for_each => p in_p f'.
rewrite str_getitem_solved //.
by move: p in_p {f'}; apply/allP.
Qed.

Section Encoder.
Variable st : cube_state.
Hypothesis valid_st : valid_state st.

Let perm_cp : perm_eq (cp st) (range 8).
Proof. by case/and5P: valid_st. Qed.

Let perm_ep : perm_eq (ep st) (range 12).
Proof. by case/and5P: valid_st. Qed.

Let size_co : size (co st) = 8.
Proof. by case/and5P: valid_st => _ _ /eqP. Qed.

Let size_eo : size (eo st) = 12.
Proof. by case/and5P: valid_st => _ _ _ _ /andP[/eqP]. Qed.

Lemma encoder_writes_indices :
  perm_eq [seq w.1 | w <- encoder_writes st] (range 54).
Proof.
have /perm_trans-> // : perm_eq [seq w.1 | w <- encoder_writes st] table_order.
rewrite /encoder_writes /table_order.
have := @loop_writes_indices corner_stickers 3 isT turn3 _ (co st) perm_cp.
have := @loop_writes_indices edge_stickers 2 isT turn2 _ (eo st) perm_ep.
move: (loop_writes _ _ _ _) (loop_writes _ _ _ _) => es cs perm_es perm_cs.
by rewrite !map_cat !perm_cat // -map_comp.
Qed.

Lemma encoder_writes_values :
  [seq w.2 | w <- encoder_writes st] = [seq solved_at p | p <- table_order].
Proof.
rewrite /encoder_writes /table_order.
have := @loop_writes_values corner_stickers 3 isT (cp st) (co st).
have := @loop_writes_values edge_stickers 2 isT (ep st) (eo st).
move: (loop_writes _ _ _ _) (loop_writes _ _ _ _) => es cs eq_es eq_cs.
by rewrite !map_cat eq_es eq_cs -map_comp.
Qed.

Lemma fill_facelets_stores :
  fill_facelets st = stores (encoder_writes st) (Canvas (nseq 54 ""%string) [::]).
Proof.
rewrite /fill_facelets /encoder_writes /corner_loop /edge_loop.
rewrite (@place_loop_writes corner_stickers 3 isT isT isT _ _ perm_cp size_co).
move: (loop_writes corner_stickers _ _ _) => cs.
rewrite stores_cat; case: (stores cs _) => [f1|//|//]; rewrite !bind_Ret.
rewrite (@place_loop_writes edge_stickers 2 isT isT isT _ _ perm_ep size_eo).
move: (loop_writes edge_stickers _ _ _) => es.
rewrite stores_cat; case: (stores es f1) => [f2|//|//]; rewrite !bind_Ret.
exact: center_loop_writes.
Qed.

Lemma fill_facelets_writes :
  fill_facelets st
  = Ret (Canvas (foldl (fun c w => update c w.1 w.2) (nseq 54 ""%string)
                   (encoder_writes st))
                [seq w.1 | w <- encoder_writes st]).
Proof.
rewrite fill_facelets_stores stores_in_range //.
rewrite -(all_map fst (fun p => p < 54)).
by rewrite (perm_all _ encoder_writes_indices); apply/allP=> p; rewrite mem_iota.
Qed.

(** What the three loops leave behind. *)
Lemma fill_facelets_valid :
  exists f,
    [/\ fill_facelets st = Ret f, perm_eq (history f) (range 54),
        size (cells f) = 54
      & perm_eq (cells f) [seq solved_at p | p <- table_order]].
Proof.
move: (encoder_writes st) encoder_writes_indices encoder_writes_values
      fill_facelets_writes => ws perm_ws vals_ws def_f.
eexists; split; first exact: def_f.
- exact: perm_ws.
- by rewrite [cells _]/= size_foldl_update.
by rewrite [cells _]/= -vals_ws; apply: foldl_update_perm.
Qed.

End Encoder.

(** ** Strings *)

Lemma characters_append (a b : string) :
  characters (a ++ b) = characters a ++ characters b.
Proof. by elim: a => [|c a IH] //=; rewrite -/(characters _) IH. Qed.

Lemma characters_join (l : seq string) :
  characters (join "" l) = flatten [seq characters x | x <- l].
Proof.
elim: l => [|x l IH] //; rewrite [RHS]/= -IH.
case: l {IH} => [|y l]; first by rewrite /= cats0.
by rewrite -characters_append.
Qed.

Lemma size_characters (s : string) : size (characters s) = String.length s.
Proof. by elim: s => [|c s IH] //=; rewrite -/(characters _) IH. Qed.

Lemma get_characters (s : string) (i : nat) :
  String.get i s = lookup (characters s) i.
Proof. by elim: s i => [|c s IH] [|i] //=. Qed.

(** ** The facelet string *)

Lemma generate_state_valid_state (d : draws) :
  valid_draws d ->
  exists2 st, generate_state d = Ret st & valid_state st.
Proof.
move=> valid_d.
have [pc [pe [ep' [_ _ _ [perm_ep' _] def_st]]]] := generate_state_valid valid_d.
case/and5P: valid_d => perm_cp _ /eqP sz_co in_co /andP[/eqP sz_eo in_eo].
eexists; first exact: def_st.
rewrite /valid_state /= perm_cp perm_ep' !size_rcons sz_co sz_eo !all_rcons.
by rewrite in_co in_eo !ltn_mod.
Qed.

Lemma encode_state_valid (st : cube_state) :
  valid_state st ->
  exists f s,
    [/\ fill_facelets st = Ret f, perm_eq (history f) (range 54),
        perm_eq (cells f) [seq solved_at p | p <- table_order],
        encode_state st = Ret s
      & s = join "" (cells f)].
Proof.
move=> valid_st.
have [f [def_f perm_h sz_f perm_f]] := fill_facelets_valid valid_st.
exists f, (join "" (cells f)); split=> //.
by rewrite /encode_state def_f /= /check_and_join (perm_mem perm_f).
Qed.

Lemma perm_characters (l1 l2 : seq string) :
  perm_eq l1 l2 ->
  perm_eq (characters (join "" l1)) (characters (join "" l2)).
Proof.
by move=> perm_l; rewrite !characters_join; apply/perm_flatten/perm_map.
Qed.

Lemma join_solved : join "" [seq solved_at p | p <- range 54] = solved_chars.
Proof. by []. Qed.

(** C4. From valid draws [generate_random_state_string] returns a
    string of length 54 that is the join of 54 one-character entries (no
    entry is left empty), made of the six face symbols, each of which
    occurs exactly 9 times. *)
Theorem generated_facelet_string (d : draws) :
  valid_draws d ->
  exists st f s,
    [/\ generate_state d = Ret st /\ fill_facelets st = Ret f,
        generate_random_state_string d = Ret s /\ s = join "" (cells f),
        size (cells f) = 54
        /\ all (fun x => String.length x == 1) (cells f),
        String.length s = 54
        /\ all (fun c => c \in face_symbols) (characters s)
      & forall c, c \in face_symbols -> count_mem c (characters s) = 9].
Proof.
move=> valid_d.
have [st def_st valid_st] := generate_state_valid_state valid_d.
have [f [s [def_f _ perm_f def_s eq_s]]] := encode_state_valid valid_st.
have perm_s := perm_characters perm_f; rewrite -eq_s in perm_s.
exists st, f, s; split=> //.
- by rewrite /generate_random_state_string def_st.
- by rewrite (perm_size perm_f) (perm_all _ perm_f).
- by rewrite -size_characters (perm_size perm_s) (perm_all _ perm_s).
move=> c in_c; have /seq.permP-> := perm_s.
by move: in_c; rewrite !inE => /or4P[/eqP->|/eqP->|/eqP->|/orP[|/orP[]]/eqP->].
Qed.

Lemma generated_facelet_string_witness :
  exists st f s,
    [/\ generate_state sample_draws = Ret st /\ fill_facelets st = Ret f,
        generate_random_state_string sample_draws = Ret s
        /\ s = join "" (cells f),
        size (cells f) = 54
        /\ all (fun x => String.length x == 1) (cells f),
        String.length s = 54
        /\ all (fun c => c \in face_symbols) (characters s)
      & forall c, c \in face_symbols -> count_mem c (characters s) = 9].
Proof.
apply: (@generated_facelet_string sample_draws).
by vm_compute.
Defined.

(** C5. The sticker tables and the center indices together list every
    index of [0, 54) once, and turning a row by an orientation
    rearranges the row.  Hence for a state made of a permutation of
    0..7, a permutation of 0..11 and orientations in range, the three
    loops assign every one of the 54 indices exactly once, no entry is
    left empty, and the encoder returns a string: the [ValueError] is
    not raised, also not from [generate_random_state_string]. *)
Theorem encoder_assigns_each_index_once (st : cube_state) :
  valid_state st ->
  [/\ perm_eq table_order (range 54),
      (forall row o, row \in corner_stickers ->
         perm_eq [seq nth 0 row ((k + o) %% 3) | k <- range 3] row)
      /\ (forall row o, row \in edge_stickers ->
            perm_eq [seq nth 0 row ((k + o) %% 2) | k <- range 2] row),
      exists f,
        [/\ fill_facelets st = Ret f, perm_eq (history f) (range 54)
          & ""%string \notin cells f],
      exists s, encode_state st = Ret s
    & forall d, generate_state d = Ret st ->
      exists s, generate_random_state_string d = Ret s].
Proof.
move=> valid_st.
have [f [s [def_f perm_h perm_f def_s _]]] := encode_state_valid valid_st.
have turn kmax row o :
    perm_eq [seq (k + o) %% kmax | k <- range kmax] (range kmax) ->
    size row = kmax ->
    perm_eq [seq nth 0 row ((k + o) %% kmax) | k <- range kmax] row.
  move=> turn_ok sz_row; rewrite (map_comp (nth 0 row)).
  rewrite (perm_trans (perm_map _ turn_ok)) //.
  by rewrite -sz_row /range -/(mkseq _ _) mkseq_nth.
split=> //.
- split=> row o in_row; apply: turn; rewrite ?turn3 ?turn2 //.
    by apply/eqP; move: row in_row {o}; apply/allP.
  by apply/eqP; move: row in_row {o}; apply/allP.
- by exists f; split=> //; rewrite (perm_mem perm_f).
- by exists s.
by move=> d def_st; exists s; rewrite /generate_random_state_string def_st.
Qed.

Lemma encoder_assigns_each_index_once_witness :
  [/\ perm_eq table_order (range 54),
      (forall row o, row \in corner_stickers ->
         perm_eq [seq nth 0 row ((k + o) %% 3) | k <- range 3] row)
      /\ (forall row o, row \in edge_stickers ->
            perm_eq [seq nth 0 row ((k + o) %% 2) | k <- range 2] row),
      exists f,
        [/\ fill_facelets sample_state = Ret f, perm_eq (history f) (range 54)
          & ""%string \notin cells f],
      exists s, encode_state sample_state = Ret s
    & forall d, generate_state d = Ret sample_state ->
      exists s, generate_random_state_string d = Ret s].
Proof.
apply: (@encoder_assigns_each_index_once sample_state).
by vm_compute.
Defined.

(** ** The move inverter *)

Lemma invert_move_involutive (m : string) :
  is_move m -> invert_move (invert_move m) = m.
Proof.
rewrite /is_move /move_tokens /=.
by rewrite !inE; do 17?[case/orP=> [/eqP->|] //]; move/eqP->.
Qed.

Lemma invert_move_is_move (m : string) : is_move m -> is_move (invert_move m).
Proof.
rewrite {1}/is_move /move_tokens /=.
by rewrite !inE; do 17?[case/orP=> [/eqP->|] //]; move/eqP->.
Qed.

Lemma is_move_token (m : string) : is_move m -> is_token m.
Proof.
rewrite /is_move /move_tokens /=.
by rewrite !inE; do 17?[case/orP=> [/eqP->|] //]; move/eqP->.
Qed.

Lemma append_empty_r (s : string) : (s ++ "")%string = s.
Proof. by elim: s => [|c s IH] //=; rewrite IH. Qed.

Lemma append_assoc (s t u : string) :
  ((s ++ t) ++ u)%string = (s ++ t ++ u)%string.
Proof. by elim: s => [|c s IH] //=; rewrite IH. Qed.

Lemma split_from_token (t rest cur : string) :
  all (fun c => ~~ isspace c) (characters t) ->
  split_from (t ++ rest) cur = split_from rest (cur ++ t).
Proof.
elim: t cur => [|c t IH] cur /=; first by rewrite append_empty_r.
rewrite -/(characters _) => /andP[/negPf-> /IH->].
by rewrite append_assoc.
Qed.

(** Splitting what [" ".join] made of tokens gives the tokens back. *)
Lemma split_join (l : seq string) :
  all is_token l -> split (join " " l) = l.
Proof.
rewrite /split; elim: l => [|t l IH] //= /andP[/andP[ne_t ns_t] tok_l].
case: l IH tok_l => [|t' l] IH tok_l.
  by rewrite -[t]append_empty_r split_from_token //= append_empty_r (negPf ne_t).
rewrite split_from_token //= (negPf ne_t); congr (_ :: _).
exact: IH.
Qed.

Lemma join_eq_empty (l : seq string) :
  all is_token l -> (join " " l == ""%string) = (l == [::]).
Proof.
case: l => [|t [|t' l]] //=; first by rewrite andbT => /andP[/negPf].
by case/andP=> /andP[]; case: t.
Qed.

(** On the serialized form: inverting what [" ".join] made of moves is
    joining the inverted sequence. *)
Lemma invert_solution_join (l : seq string) :
  all is_move l -> invert_solution (join " " l) = join " " (invert_sequence l).
Proof.
move=> moves_l.
have tok_l : all is_token l.
  by apply/allP=> m in_m; apply: is_move_token; move/allP: moves_l; apply.
rewrite /invert_solution join_eq_empty // split_join //.
by case: l {moves_l tok_l}.
Qed.

Lemma invert_sequence_moves (l : seq string) :
  all is_move l -> all is_move (invert_sequence l).
Proof.
move=> moves_l; rewrite /invert_sequence all_map all_rev.
by apply/allP=> m in_m /=; apply: invert_move_is_move; move/allP: moves_l; apply.
Qed.

(** C6. On a sequence of moves, [invert_sequence] undoes itself: every
    move token is restored by inverting it twice (a quarter turn goes
    to its prime and back, a double turn stays), and the order is
    reversed twice.  The result of one inversion is again a sequence of
    moves, and on the serialized form [invert_solution] undoes itself
    as well. *)
Theorem invert_sequence_involutive (S : seq string) :
  all is_move S ->
  [/\ invert_sequence (invert_sequence S) = S,
      all is_move (invert_sequence S),
      forall m, m \in S -> invert_move (invert_move m) = m,
      forall f, f \in faces ->
        [/\ invert_move f = (f ++ "'")%string,
            invert_move (f ++ "'") = f
          & invert_move (f ++ "2") = (f ++ "2")%string]
    & invert_solution (invert_solution (join " " S)) = join " " S].
Proof.
move=> moves_S.
have inv2 m : m \in S -> invert_move (invert_move m) = m.
  by move=> in_m; apply: invert_move_involutive; move/allP: moves_S; apply.
have invol : invert_sequence (invert_sequence S) = S.
  rewrite /invert_sequence -map_rev revK -map_comp -[RHS]map_id.
  exact/eq_in_map.
split=> //; first exact: invert_sequence_moves.
  by move=> f; rewrite !inE; do 5?[case/orP=> [/eqP->|] //]; move/eqP->.
by rewrite !invert_solution_join ?invert_sequence_moves // invol.
Qed.

Lemma invert_sequence_involutive_witness :
  [/\ invert_sequence (invert_sequence [:: "R"; "U2"; "F'"]%string)
      = [:: "R"; "U2"; "F'"]%string,
      all is_move (invert_sequence [:: "R"; "U2"; "F'"]%string),
      forall m, m \in [:: "R"; "U2"; "F'"]%string ->
        invert_move (invert_move m) = m,
      forall f, f \in faces ->
        [/\ invert_move f = (f ++ "'")%string,
            invert_move (f ++ "'") = f
          & invert_move (f ++ "2") = (f ++ "2")%string]
    & invert_solution (invert_solution (join " " [:: "R"; "U2"; "F'"]%string))
      = join " " [:: "R"; "U2"; "F'"]%string].
Proof.
apply: (@invert_sequence_involutive [:: "R"; "U2"; "F'"]%string).
by vm_compute.
Defined.

(** C8. The inverse of the sequence R U R' is R U' R', also on the
    serialized form; the inverse of the empty sequence is the empty
    sequence, which serializes to the empty string, and the inverse of
    the empty solution string is the empty string. *)
Theorem invert_sequence_examples :
  [/\ invert_sequence [:: "R"; "U"; "R'"]%string = [:: "R"; "U'"; "R'"]%string,
      invert_solution "R U R'" = "R U' R'"%string,
      invert_sequence [::] = [::],
      join " " (invert_sequence [::]) = ""%string
    & invert_solution "" = ""%string].
Proof. by []. Qed.

(** ** The error boundary of get_scramble *)




(** * Further properties of the scrambler *)

(** ** invert_move on arbitrary strings *)

Lemma characters_inj : injective characters.
Proof.
by move=> a b eq_ab; rewrite -[a]string_of_list_ascii_of_string
  -[b]string_of_list_ascii_of_string -/(characters a) eq_ab.
Qed.

Lemma characters_substring (n m : nat) (s : string) :
  characters (substring n m s) = take m (drop n (characters s)).
Proof.
elim: s n m => [|c s IH] [|n] [|m] //=; rewrite -/(characters _) ?IH ?drop0 //.
Qed.

Lemma characters_snoc (x : string) (c : ascii) :
  characters (x ++ String c EmptyString) = rcons (characters x) c.
Proof. by rewrite characters_append cats1. Qed.

(** [endswith] tests the last characters. *)
Lemma endswith_chars (m suffix : string) :
  endswith m suffix
  = (size (characters suffix) <= size (characters m))
    && (drop (size (characters m) - size (characters suffix)) (characters m)
          == characters suffix).
Proof.
rewrite /endswith -!size_characters; case: leqP => //= le_sz.
rewrite -(inj_eq characters_inj) characters_substring take_oversize //.
by rewrite size_drop subKn.
Qed.

Lemma endswith_snoc1 (x : string) (c d : ascii) :
  endswith (x ++ String c EmptyString) (String d EmptyString) = (c == d).
Proof.
rewrite endswith_chars characters_snoc size_rcons /= subn1 /=.
by rewrite -cats1 drop_size_cat // eqseq_cons eqxx andbT.
Qed.

Lemma endswith_snoc2 (x : string) (c d1 d2 : ascii) :
  endswith (x ++ String c EmptyString) (String d1 (String d2 EmptyString))
  = (c == d2) && endswith x (String d1 EmptyString).
Proof.
rewrite !endswith_chars characters_snoc size_rcons /=.
case/lastP: (characters x) => [|cy b] /=; first by rewrite andbF.
rewrite !size_rcons /= subn2 subn1 /= -!cats1 -catA drop_size_cat //=.
by rewrite drop_size_cat // !eqseq_cons eqxx !andbT andbC.
Qed.

(** A string that ends with [c] is some string followed by [c]. *)
Lemma endswith_split (m : string) (c : ascii) :
  endswith m (String c EmptyString) ->
  m = (substring 0 (String.length m - 1) m ++ String c EmptyString)%string.
Proof.
rewrite endswith_chars /= => /andP[sz_m /eqP eq_c].
apply: characters_inj; rewrite characters_snoc characters_substring drop0.
rewrite -size_characters subn1 -cats1 -eq_c -subn1.
by rewrite cat_take_drop.
Qed.

Lemma substring_snoc (x : string) (c : ascii) :
  substring 0 (String.length (x ++ String c EmptyString) - 1)
    (x ++ String c EmptyString) = x.
Proof.
apply: characters_inj; rewrite characters_substring drop0 -size_characters.
by rewrite characters_snoc size_rcons subn1 /= -cats1 take_size_cat.
Qed.

Lemma invert_move_prime (x : string) : invert_move (x ++ "'") = x.
Proof. by rewrite /invert_move endswith_snoc1 eqxx substring_snoc. Qed.

Lemma invert_move_double (x : string) :
  invert_move (x ++ "2") = (x ++ "2")%string.
Proof. by rewrite /invert_move !endswith_snoc1. Qed.

Lemma invert_move_plain (m : string) :
  ~~ endswith m "'" -> ~~ endswith m "2" -> invert_move m = (m ++ "'")%string.
Proof. by rewrite /invert_move => /negPf-> /negPf->. Qed.

Lemma string_lastP (m : string) :
  m = EmptyString \/ exists x c, m = (x ++ String c EmptyString)%string.
Proof.
elim: m => [|a m [->|[x [c ->]]]]; first by left.
  by right; exists EmptyString, a.
by right; exists (String a x), c.
Qed.

Lemma length_neq (a b : string) :
  String.length a != String.length b -> (a == b) = false.
Proof. by apply: contraNF => /eqP->. Qed.

(** Only a token without a final prime or 2 is inverted to itself
    followed by a prime. *)
Lemma invert_move_adds_prime (x : string) :
  (invert_move x == (x ++ "'")%string)
  = ~~ (endswith x "'" || endswith x "2").
Proof.
rewrite /invert_move; case: ifP => [_|_] /=.
  rewrite length_neq // -!size_characters characters_substring drop0.
  rewrite characters_snoc size_rcons size_take.
  by case: ifP => _; rewrite neq_ltn ltnS ?leqnn // leq_subr.
case: ifP => [_|_] /=; last exact: eqxx.
by rewrite length_neq // -!size_characters characters_snoc size_rcons neq_ltn ltnSn.
Qed.

(** X1. Inverting a token twice gives the token back exactly when the
    token does not end with two primes or with a 2 followed by a prime:
    a final prime is stripped without looking at what is before it (so
    R'' goes to R' and then to R, and R2' goes to R2 and stays there). *)
Theorem invert_move_twice (m : string) :
  (invert_move (invert_move m) == m)
  = ~~ (endswith m "''" || endswith m "2'").
Proof.
case: (string_lastP m) => [->|[x [c ->]]] //.
rewrite !endswith_snoc2; case: (c =P "'"%char) => [->|/eqP ne_c] /=.
  by rewrite (invert_move_prime x) invert_move_adds_prime.
case: (c =P "2"%char) => [->|/eqP ne_c2].
  by rewrite !(invert_move_double x) eqxx.
rewrite (@invert_move_plain (x ++ String c EmptyString)) ?endswith_snoc1
        ?(negPf ne_c) ?(negPf ne_c2) //.
by rewrite (invert_move_prime (x ++ String c EmptyString)) eqxx.
Qed.

(** ** invert_sequence and invert_solution on arbitrary input *)

(** X2. The inverse of two sequences in a row is the inverse of the
    second followed by the inverse of the first; inversion keeps the
    number of moves, and the move at place [i] of the result is the
    inverse of the move at place [i] from the end. *)
Theorem invert_sequence_cat (a b : seq string) :
  [/\ invert_sequence (a ++ b) = invert_sequence b ++ invert_sequence a,
      size (invert_sequence a) = size a
    & forall i,
        nth EmptyString (invert_sequence a) i
        = if i < size a then invert_move (nth EmptyString a (size a - i.+1))
          else EmptyString].
Proof.
split=> [||i]; first by rewrite /invert_sequence rev_cat map_cat.
  by rewrite size_map size_rev.
case: ltnP => [lt_i|le_i]; last by rewrite nth_default // size_map size_rev.
by rewrite (nth_map EmptyString) ?size_rev // nth_rev.
Qed.

Lemma split_from_tokens (s cur : string) :
  all (fun c => ~~ isspace c) (characters cur) ->
  all is_token (split_from s cur).
Proof.
elim: s cur => [|c s IH] cur ns_cur /=.
  by case: eqP => //= /eqP ne_cur; rewrite /is_token ne_cur ns_cur.
case space_c: (isspace c).
  case: eqP => [_|/eqP ne_cur] /=; first exact: IH.
  by rewrite /is_token ne_cur ns_cur IH.
by apply: IH; rewrite characters_snoc all_rcons space_c.
Qed.

Lemma split_tokens (s : string) : all is_token (split s).
Proof. exact: split_from_tokens. Qed.

Lemma split_blank (s : string) :
  all isspace (characters s) -> split s = [::].
Proof.
rewrite /split; elim: s => [|c s IH] //=.
by rewrite -/(characters _) => /andP[-> /IH].
Qed.

Lemma invert_solution_split (s : string) :
  invert_solution s = join " " (invert_sequence (split s)).
Proof. by rewrite /invert_solution; case: eqP => // ->. Qed.

(** X3. [invert_solution] sees its argument only through the tokens
    [split] finds in it: the result is the single-space join of the
    inverted tokens in reverse order (also for the empty string, where
    the early return gives the same), so leading, trailing and repeated
    white space make no difference, and a string of white space only
    gives the empty string. *)
Theorem invert_solution_normal_form (s : string) :
  [/\ invert_solution s = join " " (invert_sequence (split s)),
      invert_solution (join " " (split s)) = invert_solution s
    & all isspace (characters s) ==> (invert_solution s == EmptyString)].
Proof.
split; first exact: invert_solution_split.
  by rewrite !invert_solution_split split_join ?split_tokens.
by apply/implyP=> /split_blank blank_s; rewrite invert_solution_split blank_s.
Qed.

(** X4. From valid draws the solver is asked about the generated
    facelet string; when it answers with a sequence of moves joined by
    single spaces, [get_scramble] returns the inverse sequence joined by
    single spaces, [split] reads that sequence back from the scramble,
    and inverting the scramble gives the solver's answer again. *)
Theorem get_scramble_inverts_solution (d : draws) :
  valid_draws d ->
  exists2 state, generate_random_state_string d = Ret state &
    forall (solve : string -> reply) (S : seq string),
      solve state = Solution (join " " S) -> all is_move S ->
      [/\ get_scramble d solve = Ret (join " " (invert_sequence S)),
          split (join " " (invert_sequence S)) = invert_sequence S
        & invert_solution (join " " (invert_sequence S)) = join " " S].
Proof.
move=> valid_d.
have [st def_st valid_st] := generate_state_valid_state valid_d.
have [f [state [_ _ _ def_state _]]] := encode_state_valid valid_st.
have def_g : generate_random_state_string d = Ret state.
  by rewrite /generate_random_state_string def_st.
exists state => // solve S def_S moves_S.
have moves_iS := invert_sequence_moves moves_S.
have tok_iS : all is_token (invert_sequence S).
  by apply/allP=> m in_m; apply: is_move_token; move/allP: moves_iS; apply.
split.
- rewrite /get_scramble /get_scramble_with def_g /= /call def_S /=.
  by rewrite invert_solution_join.
- by rewrite split_join.
- rewrite invert_solution_join // /invert_sequence -map_rev revK -map_comp.
  congr (join _ _); rewrite -[RHS]map_id; apply/eq_in_map=> m in_m /=.
  by apply: invert_move_involutive; move/allP: moves_S; apply.
Qed.

Lemma get_scramble_inverts_solution_witness :
  exists2 state, generate_random_state_string sample_draws = Ret state &
    forall (solve : string -> reply) (S : seq string),
      solve state = Solution (join " " S) -> all is_move S ->
      [/\ get_scramble sample_draws solve = Ret (join " " (invert_sequence S)),
          split (join " " (invert_sequence S)) = invert_sequence S
        & invert_solution (join " " (invert_sequence S)) = join " " S].
Proof.
apply: (@get_scramble_inverts_solution sample_draws).
by vm_compute.
Defined.

(** ** get_permutation_parity on lists that are not permutations *)

(** As [for_range_inv], keeping track of which exception is raised. *)
Lemma for_range_inv_exn (St : Type) (Inv : nat -> St -> Prop)
    (Bad : exn -> Prop) (body : nat -> St -> outcome St) (n : nat) (st : St) :
  (forall i s, i < n -> Inv i s ->
     match body i s with
     | Ret s' => Inv i.+1 s'
     | Raise e => Bad e
     | Diverge => True
     end) ->
  Inv 0 st ->
  match for_each (range n) body st with
  | Ret s' => Inv n s'
  | Raise e => Bad e
  | Diverge => True
  end.
Proof.
move=> step; rewrite /range.
suff from m r s : m + r = n -> Inv m s ->
    match for_each (iota m r) body s with
    | Ret s' => Inv n s'
    | Raise e => Bad e
    | Diverge => True
    end by apply: from.
elim: r m s => [|r IH] m s /=; first by rewrite addn0 => <-.
rewrite addnS => def_n inv_m.
have lt_m : m < n by rewrite -def_n ltnS leq_addr.
case: (body m s) (step m s lt_m inv_m) => [s'|e|] //= inv_s'.
by apply: IH; rewrite ?addSn.
Qed.

Section ParityChecked.
Variable perm : seq nat.
Let n := size perm.

(** Every marked index has its entry in range. *)
Let checked (visited : seq bool) : Prop :=
  forall k, k < n -> nth false visited k -> nth 0 perm k < n.

(** The while loop tests the entry of every index it marks: it is left
    either by the [IndexError] of [visited[j]] or with all entries of
    marked indices in range. *)
Lemma follow_cycle_checked (fuel : nat) (visited : seq bool) (j : nat) :
  size visited = n ->
  (forall k, k < n -> nth false visited k ->
     (nth 0 perm k < n) || (nth 0 perm k == j)) ->
  match follow_cycle fuel perm visited j with
  | Ret (visited', _, _) =>
      [/\ size visited' = n, checked visited',
          forall k, nth false visited k -> nth false visited' k
        & nth false visited' j]
  | Raise e => e = Exn IndexError "list index out of range"
  | Diverge => True
  end.
Proof.
elim: fuel visited j => [|fuel IH] visited j sz_v pre /=.
- case: (ltnP j (size visited)) => [lt_j|le_j]; last by rewrite getitem_out.
  rewrite (getitem_nth false lt_j) /=.
  case v_j: (nth false visited j) => //=; split=> // k lt_k v_k.
  by case/orP: (pre k lt_k v_k) => // /eqP->; rewrite -sz_v.
- case: (ltnP j (size visited)) => [lt_j|le_j]; last by rewrite getitem_out.
  rewrite (getitem_nth false lt_j) /=.
  case v_j: (nth false visited j) => /=.
    split=> // k lt_k v_k.
    by case/orP: (pre k lt_k v_k) => // /eqP->; rewrite -sz_v.
  have lt_jn : j < size perm by move: lt_j; rewrite sz_v.
  rewrite /setitem lt_j /= (getitem_nth 0 lt_jn) /=.
  have := IH (update visited j true) (nth 0 perm j).
  rewrite size_update => /(_ sz_v).
  case: (follow_cycle _ _ _ _) => [[[visited' j'] rest]|e|] //; last first.
    apply=> k lt_k; rewrite nth_update //.
    case: eqP => [->|_ v_k]; first by rewrite eqxx orbT.
    by case/orP: (pre k lt_k v_k) => [->|/eqP->] //; rewrite lt_jn.
  move=> post; have [|sz' ck' mono v'_j] := post.
    move=> k lt_k; rewrite nth_update //.
    case: eqP => [->|_ v_k]; first by rewrite eqxx orbT.
    by case/orP: (pre k lt_k v_k) => [->|/eqP->] //; rewrite lt_jn.
  split=> // [k v_k|]; apply: mono; rewrite nth_update //; first by rewrite v_k if_same.
  by rewrite eqxx.
Qed.

Lemma parity_loop_checked (fuel : nat) :
  match parity_loop fuel perm with
  | Ret _ => is_true (all (fun x => x < n) perm)
  | Raise e => e = Exn IndexError "list index out of range"
  | Diverge => True
  end.
Proof.
pose Inv (i : nat) (st : seq bool * nat * nat) :=
  let '(visited, _, _) := st in
  [/\ size visited = n, checked visited
    & forall k, k < i -> nth false visited k].
have inv0 : Inv 0 (nseq n false, 0, fuel).
  split=> // [|k lt_k]; first by rewrite size_nseq.
  by rewrite nth_nseq if_same.
have step i st : i < n -> Inv i st ->
    match parity_body perm i st with
    | Ret st' => Inv i.+1 st'
    | Raise e => e = Exn IndexError "list index out of range"
    | Diverge => True
    end.
  case: st => [[visited cycles] rest] lt_i [sz_v ck_v all_v].
  rewrite /parity_body (getitem_nth false) ?sz_v //=.
  case v_i: (nth false visited i) => /=.
    split=> // k; rewrite ltnS leq_eqVlt => /orP[/eqP->|] //.
    exact: all_v.
  have := @follow_cycle_checked rest visited i sz_v.
  case: (follow_cycle _ _ _ _) => [[[visited' j'] rest']|e|] //=; last first.
    by apply=> k lt_k v_k; rewrite ck_v.
  move=> post; have [|sz' ck' mono v'_i] := post.
    by move=> k lt_k v_k; rewrite ck_v.
  split=> // k; rewrite ltnS leq_eqVlt => /orP[/eqP->|lt_k] //.
  exact/mono/all_v.
have := for_range_inv_exn step inv0.
rewrite /parity_loop -/n.
case: (for_each _ _ _) => [[[visited cycles] rest]|e|] // [sz_v ck_v all_v].
by apply/(all_nthP 0) => k lt_k; apply: ck_v => //; apply: all_v.
Qed.

End ParityChecked.


(** ** What the encoder puts where *)

Lemma join_cons_char (c : ascii) (l : seq string) :
  join "" (String c EmptyString :: l) = String c (join "" l).
Proof. by case: l. Qed.

(** Indexing the join of one-character entries gives the entry. *)
Lemma str_getitem_join (l : seq string) (p : nat) :
  all (fun x => String.length x == 1) l -> p < size l ->
  str_getitem (join "" l) p = Ret (nth EmptyString l p).
Proof.
elim: l p => [|x l IH] p //; case: x => [|c [|? ?]] //.
rewrite [all _ _]/= join_cons_char => one_l.
case: p => [|p] //; rewrite [size _]/= ltnS => lt_p.
by rewrite -(IH p one_l lt_p).
Qed.

Lemma encoder_writes_in (stickers : seq (seq nat)) (kmax : nat)
    (perm ori : seq nat) (i k : nat) :
  i < size stickers -> k < kmax ->
  (nth 0 (nth [::] stickers (nth 0 perm i)) ((k + nth 0 ori i) %% kmax),
   solved_at (nth 0 (nth [::] stickers i) k))
    \in loop_writes stickers kmax perm ori.
Proof.
move=> lt_i lt_k; apply/flattenP.
exists (piece_writes stickers kmax perm ori i).
  by apply/mapP; exists i; rewrite // mem_iota.
by apply/mapP; exists k; rewrite // mem_iota.
Qed.

Lemma encoder_writes_corner (st : cube_state) (i k : nat) :
  i < 8 -> k < 3 ->
  (nth 0 (nth [::] corner_stickers (nth 0 (cp st) i))
       ((k + nth 0 (co st) i) %% 3),
   solved_at (nth 0 (nth [::] corner_stickers i) k)) \in encoder_writes st.
Proof.
move=> lt_i lt_k.
have := @encoder_writes_in corner_stickers 3 (cp st) (co st) i k lt_i lt_k.
rewrite /encoder_writes.
move: (loop_writes corner_stickers _ _ _) (loop_writes edge_stickers _ _ _).
by move=> cs es in_w; rewrite mem_cat in_w.
Qed.

Lemma encoder_writes_edge (st : cube_state) (i k : nat) :
  i < 12 -> k < 2 ->
  (nth 0 (nth [::] edge_stickers (nth 0 (ep st) i))
       ((k + nth 0 (eo st) i) %% 2),
   solved_at (nth 0 (nth [::] edge_stickers i) k)) \in encoder_writes st.
Proof.
move=> lt_i lt_k.
have := @encoder_writes_in edge_stickers 2 (ep st) (eo st) i k lt_i lt_k.
rewrite /encoder_writes.
move: (loop_writes corner_stickers _ _ _) (loop_writes edge_stickers _ _ _).
by move=> cs es in_w; rewrite !mem_cat in_w orbT.
Qed.

Lemma encoder_writes_center (st : cube_state) (p : nat) :
  p \in center_indices -> (p, solved_at p) \in encoder_writes st.
Proof.
move=> in_p; rewrite /encoder_writes.
move: (loop_writes corner_stickers _ _ _) (loop_writes edge_stickers _ _ _).
move=> cs es; rewrite !mem_cat; apply/orP; right; apply/orP; right.
by apply/mapP; exists p.
Qed.

Lemma corner_sticker_in_range (i k : nat) :
  i < 8 -> k < 3 -> nth 0 (nth [::] corner_stickers i) k < 54.
Proof. by do 8?[case: i => [|i] //]; do 3?[case: k => [|k] //]. Qed.

Lemma edge_sticker_in_range (i k : nat) :
  i < 12 -> k < 2 -> nth 0 (nth [::] edge_stickers i) k < 54.
Proof. by do 12?[case: i => [|i] //]; do 2?[case: k => [|k] //]. Qed.

(** Every assignment of the encoder can be read off the string it
    returns. *)
Lemma encode_state_reads (st : cube_state) (s : string) (w : nat * string) :
  valid_state st -> encode_state st = Ret s -> w \in encoder_writes st ->
  str_getitem s w.1 = Ret w.2.
Proof.
move=> valid_st def_s in_w.
have [f [s' [def_f _ perm_f def_s' eq_s']]] := encode_state_valid valid_st.
move: def_s; rewrite def_s' eq_s' => -[<-] {s}.
have := fill_facelets_writes valid_st.
have := encoder_writes_indices valid_st.
move: (encoder_writes st) in_w => ws in_w perm_ws; rewrite def_f => -[def_cells].
have lt_w : w.1 < 54.
  by have := map_f fst in_w; rewrite (perm_mem perm_ws) mem_iota.
have in_ws : all (fun w => w.1 < size (nseq 54 EmptyString)) ws.
  apply/allP=> w' in_w'; rewrite size_nseq.
  by have := map_f fst in_w'; rewrite (perm_mem perm_ws) mem_iota.
rewrite str_getitem_join ?(perm_all _ perm_f) ?(perm_size perm_f) //.
rewrite def_cells [cells _]/= nth_foldl_update //.
by rewrite (perm_uniq perm_ws) iota_uniq.
Qed.

(** X6. What the encoder returns for a valid state holds, for every
    corner piece [i] and sticker [k], the solved character of that
    sticker at position [(k + co[i]) mod 3] of the slot [cp[i]]; the
    same for the edges with [ep], [eo] and 2; and the solved
    characters at the six center indices. *)
Theorem encoder_places_stickers (st : cube_state) :
  valid_state st ->
  exists2 s, encode_state st = Ret s &
    [/\ forall i k, i < 8 -> k < 3 ->
          str_getitem s
            (nth 0 (nth [::] corner_stickers (nth 0 (cp st) i))
                 ((k + nth 0 (co st) i) %% 3))
          = str_getitem solved_chars (nth 0 (nth [::] corner_stickers i) k),
        forall i k, i < 12 -> k < 2 ->
          str_getitem s
            (nth 0 (nth [::] edge_stickers (nth 0 (ep st) i))
                 ((k + nth 0 (eo st) i) %% 2))
          = str_getitem solved_chars (nth 0 (nth [::] edge_stickers i) k)
      & forall p, p \in center_indices ->
          str_getitem s p = str_getitem solved_chars p].
Proof.
move=> valid_st.
have [f [s [_ _ _ def_s _]]] := encode_state_valid valid_st.
exists s => //; split=> [i k lt_i lt_k|i k lt_i lt_k|p in_p].
- rewrite (encode_state_reads valid_st def_s (encoder_writes_corner st lt_i lt_k)).
  by rewrite str_getitem_solved // corner_sticker_in_range.
- rewrite (encode_state_reads valid_st def_s (encoder_writes_edge st lt_i lt_k)).
  by rewrite str_getitem_solved // edge_sticker_in_range.
rewrite (encode_state_reads valid_st def_s (encoder_writes_center st in_p)).
by rewrite str_getitem_solved //; move: p in_p; apply/allP.
Qed.

Lemma encoder_places_stickers_witness :
  exists2 s, encode_state sample_state = Ret s &
    [/\ forall i k, i < 8 -> k < 3 ->
          str_getitem s
            (nth 0 (nth [::] corner_stickers (nth 0 (cp sample_state) i))
                 ((k + nth 0 (co sample_state) i) %% 3))
          = str_getitem solved_chars (nth 0 (nth [::] corner_stickers i) k),
        forall i k, i < 12 -> k < 2 ->
          str_getitem s
            (nth 0 (nth [::] edge_stickers (nth 0 (ep sample_state) i))
                 ((k + nth 0 (eo sample_state) i) %% 2))
          = str_getitem solved_chars (nth 0 (nth [::] edge_stickers i) k)
      & forall p, p \in center_indices ->
          str_getitem s p = str_getitem solved_chars p].
Proof.
apply: (@encoder_places_stickers sample_state).
by vm_compute.
Defined.

(** ** The facelet string determines the state *)

Section Decode.
Variables (stickers : seq (seq nat)) (kmax : nat).
Hypothesis colors_ok : distinct_colors stickers kmax.
Hypothesis kmax_gt0 : 0 < kmax.
Let N := size stickers.
Let row (i : nat) : seq nat := nth [::] stickers i.

Variables (s : string) (perm1 ori1 perm2 ori2 : seq nat).
Hypothesis perm1_ok : perm_eq perm1 (range N).
Hypothesis perm2_ok : perm_eq perm2 (range N).
Hypothesis ori1_ok : size ori1 = N /\ all (fun o => o < kmax) ori1.
Hypothesis ori2_ok : size ori2 = N /\ all (fun o => o < kmax) ori2.
Hypothesis reads1 : forall i k, i < N -> k < kmax ->
  str_getitem s (nth 0 (row (nth 0 perm1 i)) ((k + nth 0 ori1 i) %% kmax))
  = Ret (solved_at (nth 0 (row i) k)).
Hypothesis reads2 : forall i k, i < N -> k < kmax ->
  str_getitem s (nth 0 (row (nth 0 perm2 i)) ((k + nth 0 ori2 i) %% kmax))
  = Ret (solved_at (nth 0 (row i) k)).

Lemma turn_back (p o : nat) :
  p < kmax -> o < kmax -> ((p + (kmax - o)) %% kmax + o) %% kmax = p.
Proof.
move=> lt_p lt_o.
by rewrite modnDml -addnA subnK 1?ltnW // -modnDmr modnn addn0 modn_small.
Qed.

Lemma slot_colors_read (perm ori : seq nat) (i : nat) :
  (forall i k, i < N -> k < kmax ->
     str_getitem s (nth 0 (row (nth 0 perm i)) ((k + nth 0 ori i) %% kmax))
     = Ret (solved_at (nth 0 (row i) k))) ->
  i < N -> nth 0 ori i < kmax ->
  [seq str_getitem s (nth 0 (row (nth 0 perm i)) p) | p <- range kmax]
  = [seq Ret c | c <- slot_colors stickers kmax i (nth 0 ori i)].
Proof.
move=> reads lt_i lt_o; rewrite /slot_colors -map_comp.
apply/eq_in_map=> p; rewrite mem_iota /= add0n => lt_p.
by rewrite -reads ?ltn_pmod // turn_back.
Qed.

Lemma colors_inj (i o i' o' : nat) :
  i < N -> o < kmax -> i' < N -> o' < kmax ->
  slot_colors stickers kmax i o = slot_colors stickers kmax i' o' ->
  i = i' /\ o = o'.
Proof.
move=> lt_i lt_o lt_i' lt_o' eq_c.
have in_pl a b : a < N -> b < kmax -> (a, b) \in placements stickers kmax.
  by move=> lt_a lt_b; apply/allpairsP; exists (a, b); rewrite !mem_iota.
have /allP/(_ _ (in_pl _ _ lt_i lt_o))/allP/(_ _ (in_pl _ _ lt_i' lt_o')) :=
  colors_ok.
by rewrite /= eq_c eqxx /= => /eqP[-> ->].
Qed.

Lemma decode_pieces : perm1 = perm2 /\ ori1 = ori2.
Proof.
have [sz_o1 in_o1] := ori1_ok; have [sz_o2 in_o2] := ori2_ok.
have sz_p1 : size perm1 = N by rewrite (perm_size perm1_ok) size_iota.
have sz_p2 : size perm2 = N by rewrite (perm_size perm2_ok) size_iota.
have same i : i < N ->
    nth 0 perm1 i = nth 0 perm2 i /\ nth 0 ori1 i = nth 0 ori2 i.
  move=> lt_i; set t := nth 0 perm1 i.
  have in_t : t \in perm2.
    rewrite (perm_mem perm2_ok) -(perm_mem perm1_ok).
    by apply: mem_nth; rewrite sz_p1.
  have lt_i' : seq.index t perm2 < N by rewrite -sz_p2 index_mem.
  have def_t : nth 0 perm2 (seq.index t perm2) = t by rewrite nth_index.
  have lt_o : nth 0 ori1 i < kmax by move/all_nthP: in_o1; apply; rewrite sz_o1.
  have lt_o' : nth 0 ori2 (seq.index t perm2) < kmax.
    by move/all_nthP: in_o2; apply; rewrite sz_o2.
  have := slot_colors_read reads1 lt_i lt_o.
  have := slot_colors_read reads2 lt_i' lt_o'.
  rewrite def_t -/t => -> /inj_map eq_c.
  have inj_Ret : injective (@Ret string) by move=> a b [].
  have [eq_i eq_o] := colors_inj lt_i lt_o lt_i' lt_o' (esym (eq_c inj_Ret)).
  by split; rewrite [in RHS]eq_i ?def_t.
by split; apply: (@eq_from_nth _ 0); rewrite ?sz_p1 ?sz_o1 // => i /same[].
Qed.

End Decode.

(** X9. Two valid states with the same facelet string are the same
    state: what the encoder returns determines the permutations and the
    orientations of the corners and of the edges. *)
Theorem encode_state_injective (st1 st2 : cube_state) :
  valid_state st1 -> valid_state st2 ->
  encode_state st1 = encode_state st2 -> st1 = st2.
Proof.
move=> valid1 valid2 eq_s.
have [f [s [_ _ _ def_s1 _]]] := encode_state_valid valid1.
have def_s2 : encode_state st2 = Ret s by rewrite -eq_s.
case/and5P: (valid1) => p_cp1 p_ep1 /eqP s_co1 i_co1 /andP[/eqP s_eo1 i_eo1].
case/and5P: (valid2) => p_cp2 p_ep2 /eqP s_co2 i_co2 /andP[/eqP s_eo2 i_eo2].
have [] := @decode_pieces corner_stickers 3 isT isT s
             (cp st1) (co st1) (cp st2) (co st2) => //.
- move=> i k lt_i lt_k.
  exact: (encode_state_reads valid1 def_s1 (encoder_writes_corner st1 lt_i lt_k)).
- move=> i k lt_i lt_k.
  exact: (encode_state_reads valid2 def_s2 (encoder_writes_corner st2 lt_i lt_k)).
have [] := @decode_pieces edge_stickers 2 isT isT s
             (ep st1) (eo st1) (ep st2) (eo st2) => //.
- move=> i k lt_i lt_k.
  exact: (encode_state_reads valid1 def_s1 (encoder_writes_edge st1 lt_i lt_k)).
- move=> i k lt_i lt_k.
  exact: (encode_state_reads valid2 def_s2 (encoder_writes_edge st2 lt_i lt_k)).
by case: st1 st2 {valid1 valid2 eq_s def_s1 def_s2 p_cp1 p_ep1 s_co1 i_co1
                  s_eo1 i_eo1 p_cp2 p_ep2 s_co2 i_co2 s_eo2 i_eo2}
     => [? ? ? ?] [? ? ? ?] /= -> -> -> ->.
Qed.

Lemma encode_state_injective_witness : sample_state = sample_state.
Proof.
by apply: (@encode_state_injective sample_state sample_state).
Defined.

(** ** More on the generated state and on parities *)

Lemma list_of_perm1 (n : nat) : list_of_perm (1%g : 'S_n) = range n.
Proof.
rewrite /list_of_perm /range -val_enum_ord.
by apply: eq_map => i /=; rewrite perm1.
Qed.

(** X8. The identity list [0, 1, ..., n-1] is even for every [n], and
    exchanging two different entries of a permutation list of [0, n)
    gives a permutation list of the opposite parity. *)
Theorem parity_of_swaps (n : nat) :
  get_permutation_parity (range n) = Ret 0
  /\ forall (l : seq nat) (i j : nat),
       perm_eq l (range n) -> i < n -> j < n -> i != j ->
       exists p l',
         [/\ get_permutation_parity l = Ret p,
             swap_entries l i j = Ret l', perm_eq l' (range n)
           & get_permutation_parity l' = Ret (1 - p)].
Proof.
split.
  by rewrite -list_of_perm1 get_permutation_parity_porbits parity_odd_perm
             odd_perm1.
move=> l i j perm_l lt_i lt_j ne_ij.
have [p [l' [def_p lt_p def_l' perm_l' par_l']]] :=
  swap_entries_parity perm_l lt_i lt_j ne_ij.
exists p, l'; split=> //; rewrite par_l'.
by case: p lt_p {def_p par_l'} => [|[|p]].
Qed.

Lemma parity_of_swaps_witness :
  [/\ get_permutation_parity (range 0) = Ret 0,
      get_permutation_parity (range 5) = Ret 0
    & exists p l',
       [/\ get_permutation_parity [:: 1; 2; 0; 4; 3] = Ret p,
           swap_entries [:: 1; 2; 0; 4; 3] 1 3 = Ret l', perm_eq l' (range 5)
         & get_permutation_parity l' = Ret (1 - p)]].
Proof.
split; first by case: (parity_of_swaps 0).
  by case: (parity_of_swaps 5).
by case: (parity_of_swaps 5) => _; apply.
Defined.

(** X7. The state built from valid draws is a valid state: the corner
    list is a permutation of 0..7, the edge list is still a permutation
    of 0..11 after the conditional exchange, which touches at most its
    first two entries, and the orientation lists have 8 entries below 3
    and 12 entries below 2. *)
Theorem generated_state_is_valid (d : draws) :
  valid_draws d ->
  exists2 st, generate_state d = Ret st &
    [/\ valid_state st, cp st = shuffled_cp d,
        perm_eq (ep st) (shuffled_ep d)
      & drop 2 (ep st) = drop 2 (shuffled_ep d)].
Proof.
move=> valid_d.
have [pc [pe [ep' [_ _ def_ep' [perm_ep' _] def_st]]]] :=
  generate_state_valid valid_d.
have [st def_st' valid_st] := generate_state_valid_state valid_d.
move: def_st' valid_st; rewrite def_st => -[<-] valid_st.
eexists; first by [].
case/and5P: valid_d => _ perm_ep _ _ _.
split=> //=; first by rewrite (perm_trans perm_ep') // perm_sym.
case: ifP def_ep' => _; last by case=> ->.
have sz_ep : size (shuffled_ep d) = 12 by rewrite (perm_size perm_ep).
case: (shuffled_ep d) sz_ep => [|e0 [|e1 l]] //= _.
by rewrite /swap_entries /= /setitem /= => -[<-].
Qed.

Lemma generated_state_is_valid_witness :
  exists2 st, generate_state sample_draws = Ret st &
    [/\ valid_state st, cp st = shuffled_cp sample_draws,
        perm_eq (ep st) (shuffled_ep sample_draws)
      & drop 2 (ep st) = drop 2 (shuffled_ep sample_draws)].
Proof.
apply: (@generated_state_is_valid sample_draws).
by vm_compute.
Defined.

(** * The timer application *)

(** ** What the scrambler does for the application *)

Lemma bind_comes_back (A B : Type) (m : outcome A) (k : A -> outcome B) :
  comes_back m -> (forall a, comes_back (k a)) -> comes_back (let* a := m in k a).
Proof. by case: m => [a|e|] //= _; apply. Qed.

Section ComesBack.
Variables (A B : Type).

Lemma for_each_comes_back (xs : seq A) (body : A -> B -> outcome B) (st : B) :
  (forall x s, comes_back (body x s)) -> comes_back (for_each xs body st).
Proof.
move=> body_ok; elim: xs st => [|x xs IH] st //=.
exact: bind_comes_back.
Qed.

Lemma getitem_comes_back (l : seq A) (i : nat) : comes_back (getitem l i).
Proof. by rewrite /getitem; case: (lookup l i). Qed.

Lemma setitem_comes_back (l : seq A) (i : nat) (v : A) :
  comes_back (setitem l i v).
Proof. by rewrite /setitem; case: ifP. Qed.

End ComesBack.

Lemma str_getitem_comes_back (s : string) (i : nat) :
  comes_back (str_getitem s i).
Proof. by rewrite /str_getitem; case: (String.get i s). Qed.

Lemma store_comes_back (f : canvas) (idx : nat) (c : string) :
  comes_back (store f idx c).
Proof. by rewrite /store /setitem; case: ifP. Qed.

Lemma get_permutation_parity_comes_back (perm : seq nat) :
  comes_back (get_permutation_parity perm).
Proof.
rewrite /get_permutation_parity /get_permutation_parity_fuel.
have := parity_loop_checked perm (size perm).
have := parity_loop_total (leqnn (size perm)).
by case: (parity_loop _ _) => [[[visited cycles] rest]|e|] //= _ ->.
Qed.

Lemma place_piece_comes_back stickers kmax perm ori i f :
  comes_back (place_piece stickers kmax perm ori i f).
Proof.
rewrite /place_piece; do 4![apply: bind_comes_back => [|?];
  first exact: getitem_comes_back].
apply: for_each_comes_back => k f'.
apply: bind_comes_back => [|?]; first exact: getitem_comes_back.
apply: bind_comes_back => [|?]; first exact: str_getitem_comes_back.
apply: bind_comes_back => [|?]; first exact: getitem_comes_back.
exact: store_comes_back.
Qed.

Lemma generate_random_state_string_comes_back (d : draws) :
  comes_back (generate_random_state_string d).
Proof.
apply: bind_comes_back => [|st].
  rewrite /generate_state.
  do 2![apply: bind_comes_back => [|?];
    first exact: get_permutation_parity_comes_back].
  apply: bind_comes_back => [|//]; case: ifP => // _.
  do 2![apply: bind_comes_back => [|?]; first exact: getitem_comes_back].
  by apply: bind_comes_back => [|?]; exact: setitem_comes_back.
apply: bind_comes_back => [|f]; last by rewrite /check_and_join; case: ifP.
apply: bind_comes_back => [|f].
  by apply: for_each_comes_back => i f; apply: place_piece_comes_back.
apply: bind_comes_back => [|f'].
  by apply: for_each_comes_back => i f'; apply: place_piece_comes_back.
apply: for_each_comes_back => idx f''.
apply: bind_comes_back => [|?]; first exact: str_getitem_comes_back.
exact: store_comes_back.
Qed.


Lemma str_of_nat_inj : injective str_of_nat.
Proof.
move=> a b /(congr1 NilEmpty.uint_of_string); rewrite !NilEmpty.usu => -[].
by move/(congr1 Nat.of_uint); rewrite !Unsigned.of_to.
Qed.

Lemma handler_returns (e : exn) (state : string) :
  printable e ->
  exists s, try_except (Raise e) (fun e => diagnostic e state) = Ret s.
Proof.
case: e => [cls text|cls e'] /=; rewrite /printable /= ?andbF // andbT => ->.
by eexists.
Qed.

(** What the generator raises is printable: [get_scramble] returns for
    every handled solver, whatever the draws. *)
Lemma get_scramble_returns (d : draws) (solve : string -> reply) :
  solver_handled solve -> exists s, get_scramble d solve = Ret s.
Proof.
move=> handled_solve; rewrite /get_scramble /get_scramble_with.
case: (generate_random_state_string d)
      (generate_random_state_string_comes_back d) => [state _|e|] //.
  rewrite /= /call; case: (solve state) (handled_solve state) => [moves _|e].
    by exists (invert_solution moves).
  exact: handler_returns.
exact: handler_returns.
Qed.

(** A loop whose body returns and keeps an invariant on every element
    that satisfies [P]. *)
Lemma for_each_inv (T St : Type) (P : T -> Prop) (Inv : St -> Prop)
    (body : T -> St -> outcome St) (xs : seq T) (st : St) :
  (forall x s, P x -> Inv s -> exists2 s', body x s = Ret s' & Inv s') ->
  (forall x, List.In x xs -> P x) ->
  Inv st -> exists2 st', for_each xs body st = Ret st' & Inv st'.
Proof.
move=> step; elim: xs st => [|x xs IH] st all_xs inv_st /=; first by exists st.
have [|s' -> inv_s'] := step x st _ inv_st; first by apply: all_xs; left.
by apply: IH => // y in_y; apply: all_xs; right.
Qed.

Lemma table_keys_rcons (log : seq ui_call) (c : ui_call) :
  table_keys (rcons log c)
  = match c with
    | TableClear => [::]
    | TableAddRow _ key => rcons (table_keys log) key
    | _ => table_keys log
    end.
Proof. by rewrite /table_keys -cats1 foldl_cat. Qed.

Lemma table_rows_rcons (log : seq ui_call) (c : ui_call) :
  table_rows (rcons log c)
  = match c with
    | TableClear => [::]
    | TableAddRow cells _ => rcons (table_rows log) cells
    | _ => table_rows log
    end.
Proof. by rewrite /table_rows -cats1 foldl_cat. Qed.

Lemma last_stats_rcons (log : seq ui_call) (c : ui_call) :
  last_stats (rcons log c)
  = if c is StatsUpdate text then Some text else last_stats log.
Proof. by rewrite /last_stats -cats1 foldl_cat. Qed.

Lemma last_scramble_rcons (log : seq ui_call) (c : ui_call) :
  last_scramble (rcons log c)
  = if c is ScrambleUpdate text then Some text else last_scramble log.
Proof. by rewrite /last_scramble -cats1 foldl_cat. Qed.

Section AppFacts.
Variable F : float_ops.
Implicit Types (a : app F) (i : input F).


Lemma bookkeeping_call_ui (c : ui_call) a :
  (if c is TableClear then false else if c is TableAddRow _ _ then false
   else true) ->
  bookkeeping a -> bookkeeping (call_ui c a).
Proof.
by case: c => //= *; rewrite /bookkeeping /= table_keys_rcons table_rows_rcons.
Qed.

Lemma bookkeeping_update_stats a : bookkeeping a -> bookkeeping (update_stats a).
Proof. exact: bookkeeping_call_ui. Qed.

Lemma bookkeeping_log_solve (t : float F) a :
  bookkeeping a -> bookkeeping (log_solve t a).
Proof.
case=> eq_count keys_a rows_a state_a.
apply: bookkeeping_update_stats; apply: bookkeeping_call_ui => //.
split; rewrite /= ?table_keys_rcons ?table_rows_rcons ?size_rcons ?addn1 //.
- by rewrite eq_count.
- by rewrite keys_a -(addn1 (solve_count a)) iotaD map_cat /= cats1 add1n addn1.
- by rewrite map_rcons /= rows_a.
Qed.

Lemma bookkeeping_clear a : bookkeeping a -> bookkeeping (action_clear_history a).
Proof.
case=> _ _ _ state_a; apply: bookkeeping_update_stats.
by split; rewrite /= ?table_keys_rcons ?table_rows_rcons.
Qed.

Lemma bookkeeping_new_scramble d solve a :
  solver_handled solve -> bookkeeping a ->
  exists2 a', action_new_scramble d solve a = Ret a' & bookkeeping a'.
Proof.
move=> handled_solve [eq_count keys_a rows_a state_a].
have [s def_s] := get_scramble_returns d handled_solve.
rewrite /action_new_scramble def_s /=; eexists; first by [].
by split; rewrite /= ?table_keys_rcons ?table_rows_rcons.
Qed.

Lemma bookkeeping_stop_timer now d solve a :
  solver_handled solve -> bookkeeping a ->
  exists2 a', stop_timer now d solve a = Ret a' & bookkeeping a'.
Proof.
move=> handled_solve [eq_count keys_a rows_a state_a].
rewrite /stop_timer; apply: bookkeeping_new_scramble => //.
apply: bookkeeping_log_solve.
do 3![apply: bookkeeping_call_ui => //].
by case: (timer_interval a);
   split; rewrite /= ?table_keys_rcons ?table_rows_rcons.
Qed.

Lemma bookkeeping_handle i a :
  solver_handled (in_solve i) -> bookkeeping a ->
  exists2 a', handle i a = Ret a' & bookkeeping a'.
Proof.
move=> handled_i inv_a; have [eq_count keys_a rows_a state_a] := inv_a.
rewrite /handle; case: (in_event i) => [key|||].
- rewrite /on_key; case: ifP => _.
    case: ifP => _; first exact: bookkeeping_stop_timer.
    case: ifP => _; last by exists a.
    eexists; first by [].
    by split; rewrite /= ?table_keys_rcons ?table_rows_rcons.
  case: ifP => _; last by exists a.
  by eexists; first by []; apply: bookkeeping_call_ui.
- exact: bookkeeping_new_scramble.
- by eexists; first by []; apply: bookkeeping_clear.
- eexists; first by [].
  by split; rewrite /= ?table_keys_rcons ?table_rows_rcons.
Qed.

(** X10. With solvers that return or raise a printable exception, the
    application never raises through any list of key presses, actions
    and ticks, and afterwards the solve counter is the number of
    recorded times and the number of rows in the table; the rows that
    are in the table (added since the last clear) have the keys "1",
    "2", ..., in this order, all different, and each row starts with its
    key; the timer state is "IDLE" or "RUNNING". *)
Theorem session_bookkeeping (d : draws) (solve : string -> reply)
    (ins : seq (input F)) :
  solver_handled solve -> solvers_handled ins ->
  exists2 a, session d solve ins = Ret a &
    [/\ solve_count a = size (solve_times a)
        /\ size (table_rows (ui a)) = solve_count a,
        table_keys (ui a) = [seq str_of_nat k | k <- iota 1 (solve_count a)],
        uniq (table_keys (ui a)),
        [seq head EmptyString row | row <- table_rows (ui a)]
        = table_keys (ui a)
      & timer_state a \in [:: "IDLE"; "RUNNING"]%string].
Proof.
move=> handled_solve handled_ins.
rewrite /session /app_init.
have [s ->] /= := get_scramble_returns d handled_solve.
have inv0 :
    bookkeeping (App (f_zero F) false 0 s [::] (f_zero F) "IDLE" [::]).
  by split.
have [a -> [eq_count keys_a rows_a state_a]] :=
  for_each_inv bookkeeping_handle handled_ins inv0.
exists a => //; split=> //.
- by split=> //; rewrite -(size_map (head EmptyString)) rows_a keys_a size_map
                         size_iota.
- by rewrite keys_a (map_inj_uniq str_of_nat_inj) iota_uniq.
Qed.

End AppFacts.

Lemma sample_inputs_handled : solvers_handled sample_inputs.
Proof. by move=> i /=; do 6?[case=> [<-|] //]. Defined.

Lemma session_bookkeeping_witness :
  exists2 a, session sample_draws (fun _ => Solution "R U") sample_inputs = Ret a &
    [/\ solve_count a = size (solve_times a)
        /\ size (table_rows (ui a)) = solve_count a,
        table_keys (ui a) = [seq str_of_nat k | k <- iota 1 (solve_count a)],
        uniq (table_keys (ui a)),
        [seq head EmptyString row | row <- table_rows (ui a)]
        = table_keys (ui a)
      & timer_state a \in [:: "IDLE"; "RUNNING"]%string].
Proof.
apply: (@session_bookkeeping sample_float_ops) => //.
exact: sample_inputs_handled.
Defined.

Section AppDisplay.
Variable F : float_ops.
Variable first : string.
Implicit Types (a : app F) (i : input F).

Lemma sync_update_stats a :
  current_scramble a = odflt first (last_scramble (ui a)) ->
  display_in_sync first (update_stats a).
Proof.
by move=> sync_a; rewrite /display_in_sync /= last_stats_rcons
                          last_scramble_rcons.
Qed.

Lemma sync_log_solve (t : float F) a :
  display_in_sync first a -> display_in_sync first (log_solve t a).
Proof.
case=> _ sync_a; apply: sync_update_stats.
by rewrite /= !last_scramble_rcons.
Qed.

Lemma sync_clear a :
  display_in_sync first a -> display_in_sync first (action_clear_history a).
Proof.
case=> _ sync_a; apply: sync_update_stats.
by rewrite /= !last_scramble_rcons.
Qed.

Lemma sync_new_scramble d solve a :
  solver_handled solve -> display_in_sync first a ->
  exists2 a', action_new_scramble d solve a = Ret a'
            & display_in_sync first a'.
Proof.
move=> handled_solve [stats_a _].
have [s def_s] := get_scramble_returns d handled_solve.
rewrite /action_new_scramble def_s /=; eexists; first by [].
by rewrite /display_in_sync /= last_stats_rcons last_scramble_rcons.
Qed.

Lemma sync_stop_timer now d solve a :
  solver_handled solve -> display_in_sync first a ->
  exists2 a', stop_timer now d solve a = Ret a' & display_in_sync first a'.
Proof.
move=> handled_solve [stats_a sync_a]; rewrite /stop_timer.
apply: sync_new_scramble => //; apply: sync_log_solve.
by case: (timer_interval a);
   rewrite /display_in_sync /= !last_stats_rcons !last_scramble_rcons.
Qed.

Lemma sync_handle i a :
  solver_handled (in_solve i) -> display_in_sync first a ->
  exists2 a', handle i a = Ret a' & display_in_sync first a'.
Proof.
move=> handled_i inv_a; have [stats_a sync_a] := inv_a.
rewrite /handle; case: (in_event i) => [key|||].
- rewrite /on_key; case: ifP => _.
    case: ifP => _; first exact: sync_stop_timer.
    case: ifP => _; last by exists a.
    eexists; first by [].
    by rewrite /display_in_sync /= !last_stats_rcons !last_scramble_rcons.
  case: ifP => _; last by exists a.
  eexists; first by [].
  by rewrite /display_in_sync /= !last_stats_rcons !last_scramble_rcons.
- exact: sync_new_scramble.
- by eexists; first by []; apply: sync_clear.
- eexists; first by [].
  by rewrite /display_in_sync /= !last_stats_rcons !last_scramble_rcons.
Qed.

End AppDisplay.

(** X11. With solvers that return or raise a printable exception, the
    two text widgets are never stale through any list of events: the
    text last given to the statistics widget is the one computed from
    the present counter and times (and as long as it was given none,
    the counter is 0 and no time is recorded), and the scramble widget
    shows the scramble that the next row will be logged with (the first
    scramble until the widget is updated). *)
Theorem session_display_in_sync (F : float_ops) (d : draws)
    (solve : string -> reply) (ins : seq (input F)) :
  solver_handled solve -> solvers_handled ins ->
  exists first a,
    [/\ get_scramble d solve = Ret first, session d solve ins = Ret a,
        match last_stats (ui a) with
        | Some text =>
            text = ("Count: " ++ str_of_nat (solve_count a) ++ newline
                    ++ newline ++ "Mean: " ++ calculate_mean a ++ newline
                    ++ "Ao5:  " ++ calculate_ao5 a)%string
        | None => solve_count a = 0 /\ solve_times a = [::]
        end
      & current_scramble a = odflt first (last_scramble (ui a))].
Proof.
move=> handled_solve handled_ins.
have [first def_first] := get_scramble_returns d handled_solve.
rewrite /session /app_init def_first /=.
have inv0 : display_in_sync first
    (App (f_zero F) false 0 first [::] (f_zero F) "IDLE" [::]).
  by split.
have [a -> [stats_a sync_a]] :=
  for_each_inv (@sync_handle F first) handled_ins inv0.
by exists first, a.
Qed.

Lemma session_display_in_sync_witness :
  exists first a,
    [/\ get_scramble sample_draws (fun _ => Solution "R U") = Ret first,
        session sample_draws (fun _ => Solution "R U") sample_inputs = Ret a,
        match last_stats (ui a) with
        | Some text =>
            text = ("Count: " ++ str_of_nat (solve_count a) ++ newline
                    ++ newline ++ "Mean: " ++ calculate_mean a ++ newline
                    ++ "Ao5:  " ++ calculate_ao5 a)%string
        | None => solve_count a = 0 /\ solve_times a = [::]
        end
      & current_scramble a = odflt first (last_scramble (ui a))].
Proof.
apply: (@session_display_in_sync sample_float_ops) => //.
exact: sample_inputs_handled.
Defined.

Section AppToggle.
Variable F : float_ops.
Implicit Types (a : app F) (i : input F).

Let running a : bool := timer_state a == "RUNNING"%string.

Let steady a : Prop :=
  timer_state a \in [:: "IDLE"; "RUNNING"]%string
  /\ timer_interval a = running a.

Lemma toggle_handle i a :
  solver_handled (in_solve i) -> steady a -> ~~ is_clear i ->
  exists2 a', handle i a = Ret a' &
    [/\ steady a',
        solve_count a' = solve_count a + (running a && is_space_key i)
      & running a' = running a (+) is_space_key i].
Proof.
move=> handled_i [state_a interval_a]; rewrite /handle /is_clear /is_space_key.
case: (in_event i) => [key|||] // _.
- rewrite /on_key; case: ifP => _; last first.
    rewrite andbF addn0 addbF.
    by case: ifP => _; (eexists; first by []); split.
  rewrite andbT /running.
  case: ifP => [run_a|idle_a].
    rewrite /stop_timer /action_new_scramble.
    have [s ->] /= := get_scramble_returns (in_draws i) handled_i.
    by (eexists; first by []); case: (timer_interval a); split.
  move: state_a; rewrite !inE idle_a orbF => /eqP idle'_a.
  by rewrite idle'_a /=; (eexists; first by []); split; rewrite //= ?addn0.
- rewrite /action_new_scramble andbF addn0 addbF.
  have [s ->] /= := get_scramble_returns (in_draws i) handled_i.
  by (eexists; first by []); split.
- by rewrite andbF addn0 addbF; (eexists; first by []); split.
Qed.

Lemma toggle_for_each (ins : seq (input F)) a :
  solvers_handled ins -> steady a -> ~~ has (@is_clear F) ins ->
  exists2 a', for_each ins (@handle F) a = Ret a' &
    [/\ steady a',
        solve_count a'
        = solve_count a + (running a + count (@is_space_key F) ins) %/ 2
      & running a' = odd (running a + count (@is_space_key F) ins)].
Proof.
elim: ins a => [|i ins IH] a handled_ins steady_a /=.
  by move=> _; exists a; rewrite // addn0; case: (running a); rewrite ?addn0.
rewrite negb_or => /andP[keep_i keep_ins].
have handled_i : solver_handled (in_solve i) by apply: handled_ins; left.
have [a1 -> [steady_1 count_1 run_1]] := toggle_handle handled_i steady_a keep_i.
rewrite bind_Ret.
have [|a' -> [steady' count' run']] := IH a1 _ steady_1 keep_ins.
  by move=> y in_y; apply: handled_ins; right.
exists a' => //=; split=> //.
  rewrite count' count_1 run_1.
  case: (running a) (is_space_key i) => [] [] /=; rewrite ?addn0 ?add0n //.
  by rewrite -[LHS]addnA [1 + (1 + _)]addnA (divnDl _ (dvdnn 2)) divnn.
rewrite run' run_1.
by case: (running a) (is_space_key i) => [] [] /=; rewrite ?add0n ?negbK.
Qed.

End AppToggle.

(** X12. With solvers that return or raise a printable exception: if
    the history is not cleared, the timer is running exactly after an
    odd number of presses of the space bar, whatever other keys, ticks
    and new scrambles come in between, and the number of logged solves
    is half the number of presses, rounded down; the interval timer is
    kept exactly while the timer runs. *)
Theorem session_space_toggles (F : float_ops) (d : draws)
    (solve : string -> reply) (ins : seq (input F)) :
  solver_handled solve -> solvers_handled ins ->
  ~~ has (@is_clear F) ins ->
  exists2 a, session d solve ins = Ret a &
    [/\ solve_count a = count (@is_space_key F) ins %/ 2,
        timer_state a
        = (if odd (count (@is_space_key F) ins) then "RUNNING" else "IDLE")%string
      & timer_interval a = odd (count (@is_space_key F) ins)].
Proof.
move=> handled_solve handled_ins keep_ins; rewrite /session /app_init.
have [s ->] /= := get_scramble_returns d handled_solve.
have [||a -> [[state_a interval_a] count_a run_a]] :=
  @toggle_for_each F ins (App (f_zero F) false 0 s [::] (f_zero F) "IDLE" [::])
                   handled_ins.
- by [].
- by [].
exists a => //; rewrite /= !add0n in count_a run_a.
split=> //; last by rewrite interval_a run_a.
by move: state_a run_a; rewrite !inE => /orP[] /eqP-> <-.
Qed.

Lemma session_space_toggles_witness :
  exists2 a, session sample_draws (fun _ => Solution "R U") sample_inputs = Ret a &
    [/\ solve_count a = count (@is_space_key sample_float_ops) sample_inputs %/ 2,
        timer_state a
        = (if odd (count (@is_space_key sample_float_ops) sample_inputs)
           then "RUNNING" else "IDLE")%string
      & timer_interval a
        = odd (count (@is_space_key sample_float_ops) sample_inputs)].
Proof.
apply: (@session_space_toggles sample_float_ops) => //.
exact: sample_inputs_handled.
Defined.

(** X13. With a solver that returns or raises a printable exception,
    pressing the space bar while the timer runs stops it and makes
    these widget calls, in this order: the interval is stopped if there
    is one, the timer shows the final time and turns idle, one row is
    logged (its number, the formatted time since the start, and the
    scramble that was on display during the solve), the statistics are
    shown, and only then, last, the new scramble is shown. *)
Theorem stop_logs_current_scramble (F : float_ops) (a : app F)
    (now : float F) (d : draws) (solve : string -> reply) :
  solver_handled solve -> timer_state a = "RUNNING"%string ->
  exists new a',
    [/\ get_scramble d solve = Ret new
        /\ on_key "space" now d solve a = Ret a',
        ui a'
        = ui a
          ++ (if timer_interval a then [:: IntervalStop] else [::])
          ++ [:: TimerUpdate (format_time (f_sub now (start_time a)));
                 TimerRemoveClass "running";
                 TimerAddClass "idle";
                 TableAddRow [:: str_of_nat (solve_count a + 1);
                                 format_time (f_sub now (start_time a));
                                 current_scramble a]
                             (str_of_nat (solve_count a + 1));
                 TableScrollEnd;
                 StatsUpdate (stats_text a');
                 ScrambleUpdate new],
        [/\ table_rows (ui a')
            = rcons (table_rows (ui a))
                [:: str_of_nat (solve_count a + 1);
                    format_time (f_sub now (start_time a));
                    current_scramble a],
            solve_count a' = solve_count a + 1
          & solve_times a' = rcons (solve_times a) (f_sub now (start_time a))],
        current_scramble a' = new /\ last_scramble (ui a') = Some new
      & timer_state a' = "IDLE"%string /\ timer_interval a' = false].
Proof.
move=> handled_solve run_a.
have [new def_new] := get_scramble_returns d handled_solve.
exists new; rewrite /on_key /= run_a /= /stop_timer /action_new_scramble.
rewrite def_new /=; eexists; split; try by [].
- by case: (timer_interval a); rewrite /= -!cats1 -!catA.
- by case: (timer_interval a); rewrite /= !table_rows_rcons.
- by case: (timer_interval a); rewrite /= !last_scramble_rcons.
- by case: (timer_interval a).
Qed.

Lemma stop_logs_current_scramble_witness :
  exists new a',
    [/\ get_scramble sample_draws (fun _ => Solution "R U") = Ret new
        /\ @on_key sample_float_ops "space" 2000 sample_draws
             (fun _ => Solution "R U") sample_running_app = Ret a',
        ui a'
        = ui sample_running_app
          ++ (if timer_interval sample_running_app then [:: IntervalStop]
              else [::])
          ++ [:: TimerUpdate
                   (format_time (f_sub (2000 : float sample_float_ops)
                                       (start_time sample_running_app)));
                 TimerRemoveClass "running";
                 TimerAddClass "idle";
                 TableAddRow
                   [:: str_of_nat (solve_count sample_running_app + 1);
                       format_time (f_sub (2000 : float sample_float_ops)
                                      (start_time sample_running_app));
                       current_scramble sample_running_app]
                   (str_of_nat (solve_count sample_running_app + 1));
                 TableScrollEnd;
                 StatsUpdate (stats_text a');
                 ScrambleUpdate new],
        [/\ table_rows (ui a')
            = rcons (table_rows (ui sample_running_app))
                [:: str_of_nat (solve_count sample_running_app + 1);
                    format_time (f_sub (2000 : float sample_float_ops)
                                   (start_time sample_running_app));
                    current_scramble sample_running_app],
            solve_count a' = solve_count sample_running_app + 1
          & solve_times a'
            = rcons (solve_times sample_running_app)
                    (f_sub (2000 : float sample_float_ops)
                       (start_time sample_running_app))],
        current_scramble a' = new /\ last_scramble (ui a') = Some new
      & timer_state a' = "IDLE"%string /\ timer_interval a' = false].
Proof.
by apply: (@stop_logs_current_scramble sample_float_ops sample_running_app).
Defined.
